(** * Forecast utility functions: supervised-set construction and scoring

    A shallow embedding of [Forecast-Code/Utility_functions.py].

    Conventions of the embedding.
    - A floating-point cell is an [option Q]: [None] is NaN, [Some q] a
      finite value.  Arithmetic on finite values is exact rational
      arithmetic; comparisons are the rational ones.  The one place where
      the code can produce an infinity, the division by a zero entry in
      the MAPE, yields [None] as well: a value that is not finite.
    - A one-dimensional array or pandas Series is a [list]; a
      two-dimensional array is the list of its rows.
    - [scipy.ndimage.shift] is only ever called with an integer offset and
      [cval = NaN]. It interpolates with a prefiltered cubic spline: on an
      input without NaN it is the index shift that pads with NaN, the same
      function as [pandas.Series.shift], up to the rounding of the spline
      weights, which exact arithmetic leaves out; on an input that holds a
      NaN the prefilter spreads it and every output is NaN.
    - Python exceptions are [None] results (or a constructor of [outcome]
      where the kind of the exception matters). *)

From Stdlib Require Import QArith Qround Qabs Qminmax Sorted Lqa.
From stdpp Require Import base list strings pretty gmap.

Local Open Scope Z_scope.

(** ** Cells and Python slicing *)

Definition cell : Type := option Q.
Definition NaN : cell := None.

(** [np.isnan] *)
Definition isnan (c : cell) : bool :=
  match c with None => true | Some _ => false end.

(** [~np.isnan(row).any()] : the row has no undefined entry. *)
Definition row_defined (row : list cell) : bool :=
  forallb (fun c => negb (isnan c)) row.

(** Position designated by a slice bound [k] in a sequence of length [n]:
    negative bounds count from the end, and every bound is clipped to
    [0..n]. *)
Definition clamp_index (n : nat) (k : Z) : nat :=
  if k <? 0 then Z.to_nat (Z.max 0 (Z.of_nat n + k))
  else Nat.min (Z.to_nat k) n.

(** [l[:k]] *)
Definition slice_to {A} (k : Z) (l : list A) : list A :=
  take (clamp_index (length l) k) l.

(** [l[k:]] *)
Definition slice_from {A} (k : Z) (l : list A) : list A :=
  drop (clamp_index (length l) k) l.

(** [l[a:b]] *)
Definition slice {A} (a b : Z) (l : list A) : list A :=
  let start := clamp_index (length l) a in
  let stop := clamp_index (length l) b in
  take (stop - start)%nat (drop start l).

(** [Series.shift(i)]: the value at position [t] moves to position
    [t + i]; vacated positions are NaN and the length is kept. *)
Definition shift (l : list cell) (i : Z) : list cell :=
  let n := length l in
  if 0 <=? i then take n (replicate (Z.to_nat i) NaN ++ l)
  else drop (Z.to_nat (- i)) l ++ replicate (Nat.min (Z.to_nat (- i)) n) NaN.

(** [shift(arr, i, cval=NaN)] of scipy.ndimage: the index shift on an
    array without NaN, all NaN on an array that holds one. *)
Definition ndimage_shift (l : list cell) (i : Z) : list cell :=
  if row_defined l then shift l i else replicate (length l) NaN.

(** [np.asarray(cols).T] for columns of common length [n]: row [r] collects
    entry [r] of each column. *)
Definition stack_T (n : nat) (cols : list (list cell)) : list (list cell) :=
  map (fun r => map (fun c => nth r c NaN) cols) (seq 0 n).

(** [M[~np.isnan(M).any(axis=1)]] *)
Definition drop_nan_rows (M : list (list cell)) : list (list cell) :=
  List.filter row_defined M.

(** ** create_supervised *)

(** The [data] argument: a pandas Series, or a two-dimensional array of
    which only column 0 is read. *)
Inductive data : Type :=
| Series (values : list cell)
| NdArray (ncols : nat) (rows : list (list cell)).

(** The series that is lagged: the Series itself, or [data[:,0]], which
    raises IndexError on an array without columns. *)
Definition column0 (d : data) : option (list cell) :=
  match d with
  | Series v => Some v
  | NdArray O _ => None
  | NdArray (S _) rows => Some (map (fun r => nth 0 r NaN) rows)
  end.

Record supervised : Type := mkSupervised {
  trainX : list (list cell);
  trainY : list (list cell);
  testX : list (list cell);
  testY : list (list cell)
}.

(** The shift that builds the lagged copies: [data.shift(i)] for a
    Series, scipy's [shift(data[:,0], i, cval=np.NaN)] otherwise. *)
Definition lag_shift (d : data) : list cell -> Z -> list cell :=
  match d with
  | Series _ => shift
  | NdArray _ _ => ndimage_shift
  end.

(** [X]: the lagged copies stacked as columns, after the rows with an
    undefined lag are dropped. *)
Definition lag_matrix_by (sh : list cell -> Z -> list cell)
    (col : list cell) (look_back : nat) : list (list cell) :=
  let back := map (fun i => sh col (Z.of_nat i)) (seq 0 (look_back + 1)) in
  drop_nan_rows (stack_T (length col) back).

(** The lag matrix of the index shift: that of a Series, and that of an
    array whose column holds no NaN. *)
Definition lag_matrix (col : list cell) (look_back : nat) : list (list cell) :=
  let back := map (fun i => shift col (Z.of_nat i)) (seq 0 (look_back + 1)) in
  drop_nan_rows (stack_T (length col) back).

(** [Y]: the lead matrix built from [X[:,0]] with scipy's shift, column 0
    discarded, then the rows with an undefined lead dropped. *)
Definition lead_matrix (X : list (list cell)) (n_seq : nat) : list (list cell) :=
  let x0 := map (fun r => nth 0 r NaN) X in
  let forward :=
    map (fun i => ndimage_shift x0 (- Z.of_nat i)) (seq 0 (n_seq + 1)) in
  drop_nan_rows (map (drop 1) (stack_T (length x0) forward)).

Definition create_supervised (d : data) (look_back n_seq : nat)
    (train_split : Z) (overlap : bool) : option supervised :=
  match column0 d with
  | None => None
  | Some col =>
    let X := lag_matrix_by (lag_shift d) col look_back in
    let Y := lead_matrix X n_seq in
    let X := take (length Y) X in
    let start := if overlap then train_split - Z.of_nat look_back - 1
                 else train_split in
    Some {| trainX := slice_to train_split X;
            trainY := slice_to train_split Y;
            testX := slice_from start X;
            testY := slice_from start Y |}
  end.

(** The aligned lag matrix that is split (after [X = X[:len(Y),:]]), for
    the index shift. *)
Definition aligned_X (col : list cell) (look_back n_seq : nat) : list (list cell) :=
  let X := lag_matrix col look_back in
  take (length (lead_matrix X n_seq)) X.

(** The shift of the branch taken is the index shift: the input is a
    Series, or an array whose column 0 holds no NaN. *)
Definition exact_shift (d : data) (col : list cell) : Prop :=
  match d with
  | Series _ => True
  | NdArray _ _ => row_defined col = true
  end.

(** ** Labelled tables (pandas DataFrame) *)

(** A DataFrame is the ordered list of its named columns; rows are
    addressed by position. *)
Definition dataframe : Type := list (string * list cell).

(** [df[name]]; KeyError is [None]. *)
Fixpoint df_get (df : dataframe) (name : string) : option (list cell) :=
  match df with
  | [] => None
  | (n, c) :: rest => if String.eqb n name then Some c else df_get rest name
  end.

(** [df[name] = col]: an existing column is overwritten in place, a new
    one is appended on the right. *)
Fixpoint df_set (df : dataframe) (name : string) (col : list cell) : dataframe :=
  match df with
  | [] => [(name, col)]
  | (n, c) :: rest =>
    if String.eqb n name then (n, col) :: rest
    else (n, c) :: df_set rest name col
  end.

(** [df[a:b]]: positional row slice of every column. *)
Definition df_rows (a b : Z) (df : dataframe) : dataframe :=
  map (fun nc => (fst nc, slice a b (snd nc))) df.

(** [df.drop(name, axis=1)] *)
Definition df_drop (name : string) (df : dataframe) : dataframe :=
  List.filter (fun nc => negb (String.eqb (fst nc) name)) df.

(** [df.iloc[:, k:]] *)
Definition df_iloc_cols_from (k : Z) (df : dataframe) : dataframe :=
  slice_from k df.

Definition df_columns (df : dataframe) : list string := map fst df.

(** [len(df)]: the number of rows (0 for a table without columns here). *)
Definition df_len (df : dataframe) : nat :=
  match df with
  | [] => O
  | (_, c) :: _ => length c
  end.

(** [range(1, n + 1)] *)
Definition range1 (n : Z) : list Z := map Z.of_nat (seq 1 (Z.to_nat n)).

(** ** supervised_set *)

(** One pass of the lag (resp. lead) loop: column
    [var_name + tag + str(t)] receives [df[var_name].shift(sign * t)].
    The [.dropna()] of the source is undone by the index alignment of the
    column assignment, which refills the dropped positions with NaN. *)
Definition add_shifted (var_name tag : string) (sign : Z) (col : list cell)
    (tbl : dataframe) (t : Z) : dataframe :=
  df_set tbl (var_name +:+ tag +:+ pretty t) (shift col (sign * t)).

Definition supervised_set (df : dataframe) (var_name : string)
    (lag lead operational_lag : Z) : option (dataframe * dataframe) :=
  match df_get df var_name with
  | None => None
  | Some col =>
    let lag_pred := [(var_name, col)] in
    let lead_pred := [(var_name, col)] in
    let lag_pred :=
      fold_left (add_shifted var_name "_lag_" 1 col) (range1 lag) lag_pred in
    let lead_pred :=
      fold_left (add_shifted var_name "_lead_" (-1) col) (range1 lead) lead_pred in
    let lag_pred := df_rows lag (- lead) lag_pred in
    let lead_pred := df_drop var_name (df_rows lag (- lead) lead_pred) in
    let lag_pred :=
      if 0 <? operational_lag then df_iloc_cols_from operational_lag lag_pred
      else lag_pred in
    Some (lag_pred, lead_pred)
  end.

(** ** lagged_predictors_pd *)

(** DataFrames are mutable objects passed by reference: the store maps an
    object identity to the current contents of the table. *)
Definition loc : Type := nat.
Abbreviation store := (gmap nat dataframe).

(** [int(x)] on a float: truncation toward zero. *)
Definition py_int (x : Q) : Z := Z.quot (Qnum x) (Zpos (Qden x)).

(** [abs(c) > thres], false on NaN. *)
Definition abs_exceeds (thres : Q) (c : cell) : bool :=
  match c with
  | None => false
  | Some v => negb (Qle_bool (Qabs v) thres)
  end.

(** [np.argwhere(mask)] on a one-dimensional mask: the positions that
    hold, in increasing order. *)
Fixpoint argwhere_from {A} (f : A -> bool) (i : nat) (l : list A) : list nat :=
  match l with
  | [] => []
  | x :: rest =>
    if f x then i :: argwhere_from f (S i) rest
    else argwhere_from f (S i) rest
  end.

Definition argwhere {A} (f : A -> bool) (l : list A) : list nat :=
  argwhere_from f 0%nat l.

(** [Lags = np.argwhere(abs(PACF) > thres) - 1] *)
Definition candidate_lags (PACF : list cell) (thres : Q) : list Z :=
  map (fun k => Z.of_nat k - 1) (argwhere (abs_exceeds thres) PACF).

Definition starting_point (freq : Q) (operational_lag : Z) (da_auction : bool) : Z :=
  if da_auction then (py_int (freq * 24) - 1) + operational_lag
  else operational_lag.

(** [Lags = Lags[Lags > starting_point]] *)
Definition selected_lags (PACF : list cell) (thres freq : Q)
    (operational_lag : Z) (da_auction : bool) : list Z :=
  List.filter (fun l => starting_point freq operational_lag da_auction <? l)
    (candidate_lags PACF thres).

(** [name + str(lag)] with [name = col_name + '_'] *)
Definition lag_name (col_name : string) (lag : Z) : string :=
  (col_name +:+ "_") +:+ pretty lag.

(** One iteration of the loop over [Lags], on the table contents and the
    list of names; [df[col_name]] is read from the table as it stands. *)
Definition add_lag_column (col_name : string)
    (acc : option (dataframe * list string)) (lag : Z)
    : option (dataframe * list string) :=
  match acc with
  | None => None
  | Some (tbl, names) =>
    match df_get tbl col_name with
    | None => None
    | Some col =>
      let temp_name := lag_name col_name lag in
      Some (df_set tbl temp_name (shift col lag), names ++ [temp_name])
    end
  end.

Section Pacf.

(** The PACF estimator of statsmodels is a collaborator: given a series
    and [nlags] it returns [nlags + 1] values, position [k] for lag [k]. *)
Variable pacf : list cell -> nat -> list cell.

(** The call on store [h] with the table object [df]; the result is the
    store after the call, the returned table object and the name list.
    The optional plot has no effect on the values and is left out. *)
Definition lagged_predictors_pd (h : store) (df : loc) (col_name : string)
    (freq : Q) (d : nat) (operational_lag : Z) (thres : Q) (da_auction : bool)
    : option (store * (loc * list string)) :=
  match h !! df with
  | None => None
  | Some tbl =>
    match df_get tbl col_name with
    | None => None
    | Some col =>
      let PACF := pacf col d in
      let Lags := selected_lags PACF thres freq operational_lag da_auction in
      match fold_left (add_lag_column col_name) Lags (Some (tbl, [])) with
      | None => None
      | Some (tbl', name_list) => Some (<[df := tbl']> h, (df, name_list))
      end
    end
  end.

End Pacf.

(** ** Numeric helpers of the scoring functions *)

Local Open Scope Q_scope.

(** What a call does: it returns, or raises one of the exceptions that the
    scoring functions can raise. *)
Inductive outcome (A : Type) : Type :=
| Returned (a : A)
| AssertionError (msg : string)
| ValueError
| IndexError
| ZeroDivisionError.
Arguments Returned {A} a.
Arguments AssertionError {A} msg.
Arguments ValueError {A}.
Arguments IndexError {A}.
Arguments ZeroDivisionError {A}.

Definition bind {A B} (o : outcome A) (k : A -> outcome B) : outcome B :=
  match o with
  | Returned a => k a
  | AssertionError m => AssertionError m
  | ValueError => ValueError
  | IndexError => IndexError
  | ZeroDivisionError => ZeroDivisionError
  end.

Notation "'let*' x ':=' o 'in' k" := (bind o (fun x => k))
  (at level 10, x name, o at level 100, k at level 200).

(** Arguments with a default value: the caller omits them or passes one. *)
Inductive arg (A : Type) : Type :=
| Omitted
| Passed (a : A).
Arguments Omitted {A}.
Arguments Passed {A} a.

Definition arg_or {A} (default : A) (a : arg A) : A :=
  match a with Omitted => default | Passed x => x end.

Definition sum_list (l : list Q) : Q := fold_left Qplus l 0.

(** [np.mean] of the flattened values: NaN on an empty array. *)
Definition mean_list (l : list Q) : cell :=
  match l with
  | [] => NaN
  | _ => Some (Qred (sum_list l / inject_Z (Z.of_nat (length l))))
  end.

Definition cell_map (f : Q -> Q) (c : cell) : cell :=
  match c with None => None | Some v => Some (f v) end.

Definition cell_sub (a b : cell) : cell :=
  match a, b with
  | Some x, Some y => Some (Qred (x - y))
  | _, _ => NaN
  end.

(** Round to the nearest integer, ties to the even one. *)
Definition rint (x : Q) : Z :=
  let f := Qfloor x in
  match Qcompare (x - inject_Z f) (1 # 2) with
  | Lt => f
  | Gt => (f + 1)%Z
  | Eq => if Z.even f then f else (f + 1)%Z
  end.

(** [round(x, digits)] on a NumPy float. *)
Definition py_round (x : Q) (digits : Z) : Q :=
  if (0 <=? digits)%Z
  then Qred (inject_Z (rint (x * inject_Z (10 ^ digits))) / inject_Z (10 ^ digits))
  else Qred (inject_Z (rint (x / inject_Z (10 ^ (- digits)))) * inject_Z (10 ^ (- digits))).

(** A two-dimensional array with its shape. *)
Record ndarray : Type := mkArr {
  nrows : nat;
  ncols : nat;
  elems : list (list Q)
}.

Definition shape (a : ndarray) : nat * nat := (nrows a, ncols a).

Definition get (a : ndarray) (r c : nat) : Q := nth c (nth r (elems a) []) 0.

(** Values of the array in row-major order. *)
Definition flatten (a : ndarray) : list Q :=
  flat_map (fun r => map (get a r) (seq 0 (ncols a))) (seq 0 (nrows a)).

Definition tabulate (r c : nat) (f : nat -> nat -> Q) : ndarray :=
  {| nrows := r; ncols := c;
     elems := map (fun i => map (f i) (seq 0 c)) (seq 0 r) |}.

(** NumPy broadcasting of one axis: equal lengths, or one of them is 1. *)
Definition broadcast_dim (m n : nat) : option nat :=
  if Nat.eqb m n then Some m
  else if Nat.eqb m 1 then Some n
  else if Nat.eqb n 1 then Some m
  else None.

Definition broadcastable (s t : nat * nat) : bool :=
  match broadcast_dim (fst s) (fst t), broadcast_dim (snd s) (snd t) with
  | Some _, Some _ => true
  | _, _ => false
  end.

(** Index into an axis of length [m] when broadcasting. *)
Definition bidx (m i : nat) : nat := if Nat.eqb m 1 then O else i.

(** Elementwise binary operation with broadcasting; incompatible shapes
    raise ValueError. *)
Definition broadcast2 (f : Q -> Q -> Q) (a b : ndarray) : outcome ndarray :=
  match broadcast_dim (nrows a) (nrows b), broadcast_dim (ncols a) (ncols b) with
  | Some r, Some c =>
    Returned (tabulate r c (fun i j =>
      f (get a (bidx (nrows a) i) (bidx (ncols a) j))
        (get b (bidx (nrows b) i) (bidx (ncols b) j))))
  | _, _ => ValueError
  end.

Definition arr_map (f : Q -> Q) (a : ndarray) : ndarray :=
  tabulate (nrows a) (ncols a) (fun i j => f (get a i j)).

Definition shape_eqb (s t : nat * nat) : bool :=
  Nat.eqb (fst s) (fst t) && Nat.eqb (snd s) (snd t).

(** [round(v, digits)] when [digits] is given, [v] otherwise. *)
Definition round_opt (digits : option Z) (v : cell) : cell :=
  match digits with
  | None => v
  | Some d => cell_map (fun x => py_round x d) v
  end.

(** ** brier_score *)

Definition brier_score (predictions actual : ndarray) (digits : option Z)
    : outcome cell :=
  let* diff := broadcast2 Qminus predictions actual in
  Returned (round_opt digits (mean_list (flatten (arr_map (fun x => x * x) diff)))).

(** ** pit_eval *)

(** Position of the first entry of the row that reaches the target:
    [np.where(row >= t)[0][0]], guarded by [any(row >= t)]. *)
Definition first_reaching (row : list Q) (t : Q) : option nat :=
  match argwhere (fun v => Qle_bool t v) row with
  | [] => None
  | j :: _ => Some j
  end.

(** The PIT value of observation [i]. A quantile level is looked up with a
    position of the prediction row and may be out of range. *)
Definition pit_value (quantiles : list Q) (row : list Q) (t : Q) : outcome Q :=
  match first_reaching row t with
  | None => Returned 1
  | Some j =>
    match quantiles !! j with
    | Some y => Returned y
    | None => IndexError
    end
  end.

Fixpoint pit_rows (quantiles : list Q) (quant_pred : list (list Q))
    (target : list Q) (i : nat) : outcome (list Q) :=
  match target with
  | [] => Returned []
  | t :: rest =>
    match quant_pred !! i with
    | None => IndexError
    | Some row =>
      let* v := pit_value quantiles row t in
      let* vs := pit_rows quantiles quant_pred rest (S i) in
      Returned (v :: vs)
    end
  end.

(** The histogram plot has no effect on the returned values. *)
Definition pit_eval (target : list Q) (quant_pred : list (list Q))
    (quantiles : list Q) : outcome (list Q) :=
  pit_rows quantiles quant_pred target 0%nat.

(** ** eval_point_pred and energy_score *)

(** Some entry of the array is 0. *)
Definition has_zero (a : ndarray) : bool :=
  existsb (fun x => Qeq_bool x 0) (flatten a).

(** [a[lo:hi]] on rows, for [lo <= hi]. *)
Definition rows_slice (lo hi : nat) (a : ndarray) : ndarray :=
  tabulate (Nat.min hi (nrows a) - Nat.min lo (nrows a)) (ncols a)
    (fun i j => get a (lo + i) j).

(** [a[:, lo:hi]] on columns, for [lo <= hi]. *)
Definition cols_slice (lo hi : nat) (a : ndarray) : ndarray :=
  tabulate (nrows a) (Nat.min hi (ncols a) - Nat.min lo (ncols a))
    (fun i j => get a i (lo + j)).

(** [range(start, stop, step)] for a positive [step]. *)
Definition py_range (start stop step : nat) : list nat :=
  map (fun k => (start + k * step)%nat)
    (seq 0 ((stop - start + step - 1) / step)).

(** Mean of scores of which some may be NaN. *)
Definition mean_cells (l : list cell) : cell :=
  match mapM id l with
  | None => NaN
  | Some vs => mean_list vs
  end.

Section Sqrt.

(** The square root is the only operation on values that rational
    arithmetic lacks; the scoring functions are embedded over any
    interpretation of it. *)
Variable sqrt : Q -> Q.

(** A zero entry of [actual] makes NumPy divide by zero: the quotient is
    an infinity or NaN, and so is the MAPE, rounded or not. *)
Definition eval_point_pred (predictions actual : ndarray) (digits : option Z)
    : outcome (cell * cell * cell) :=
  if negb (shape_eqb (shape predictions) (shape actual))
  then AssertionError "Shape missmatch"
  else
    let* diff := broadcast2 Qminus predictions actual in
    let* ratio := broadcast2 Qdiv diff actual in
    let mape := if has_zero actual then NaN
                else mean_list (flatten (arr_map Qabs ratio)) in
    let rmse := cell_map sqrt (mean_list (flatten (arr_map (fun x => x * x) diff))) in
    let mae := mean_list (flatten (arr_map Qabs diff)) in
    Returned (round_opt digits mape, round_opt digits rmse, round_opt digits mae).

(** [np.linalg.norm(a, axis=0)]: the Euclidean norm of every column. *)
Definition norm_axis0 (a : ndarray) : list Q :=
  map (fun c => sqrt (sum_list (map (fun r => get a r c * get a r c)
                                    (seq 0 (nrows a)))))
      (seq 0 (ncols a)).

(** The dispersion sum of a block: the loop over [j] that accumulates
    [t]. *)
Fixpoint dispersion (block : ndarray) (js : list nat) (t : Q) : outcome Q :=
  match js with
  | [] => Returned t
  | j :: rest =>
    let* d := broadcast2 Qminus (cols_slice j (j + 1) block) block in
    dispersion block rest (t + sum_list (norm_axis0 d))
  end.

(** The score appended to [ES] for the block that ends at row [i]. *)
Definition block_score (target pred_scenarios : ndarray) (step i : nat)
    : outcome cell :=
  let n_scen := ncols pred_scenarios in
  let block := rows_slice (i - step) i pred_scenarios in
  let* diff := broadcast2 Qminus block (rows_slice (i - step) i target) in
  let dist := mean_list (norm_axis0 diff) in
  let* t := dispersion block (seq 0 n_scen) 0 in
  if Nat.eqb n_scen 0 then ZeroDivisionError
  else
    let t := t / inject_Z (2 * Z.of_nat n_scen ^ 2) in
    Returned (cell_sub dist (Some t)).

Fixpoint block_scores (target pred_scenarios : ndarray) (step : nat)
    (ends : list nat) : outcome (list cell) :=
  match ends with
  | [] => Returned []
  | i :: rest =>
    let* s := block_score target pred_scenarios step i in
    let* ss := block_scores target pred_scenarios step rest in
    Returned (s :: ss)
  end.

(** The row indices at which the loop closes a block:
    [range(step, len(target), step)]. *)
Definition block_ends (target : ndarray) (step : nat) : list nat :=
  py_range step (nrows target) step.

Definition energy_score (target pred_scenarios : ndarray) (step : nat)
    : outcome cell :=
  if Nat.eqb step 0 then ValueError
  else
    let* ES := block_scores target pred_scenarios step (block_ends target step) in
    Returned (mean_cells ES).

End Sqrt.

(** ** VaR and CVaR *)

Fixpoint insert_sorted (x : Q) (l : list Q) : list Q :=
  match l with
  | [] => [x]
  | y :: rest => if Qle_bool x y then x :: l else y :: insert_sorted x rest
  end.

(** [np.sort] *)
Definition np_sort (l : list Q) : list Q := foldr insert_sorted [] l.

(** [np.quantile(data, q)] with the default linear interpolation between
    the two order statistics around position [(n - 1) * q]. It raises on
    an empty sample and on a level outside [0, 1]. *)
Definition np_quantile (data : list Q) (level : Q) : option Q :=
  match data with
  | [] => None
  | _ =>
    if Qle_bool 0 level && Qle_bool level 1 then
      let a := np_sort data in
      let n := length a in
      let h := inject_Z (Z.of_nat (n - 1)) * level in
      let lo := Z.to_nat (Qfloor h) in
      let hi := Nat.min (lo + 1) (n - 1) in
      let g := h - inject_Z (Z.of_nat lo) in
      Some (Qred (nth lo a 0 + g * (nth hi a 0 - nth lo a 0)))
    else None
  end.

(** [def VaR(data, quant = .05, digits = 3)] *)
Definition VaR (data : list Q) (quant : arg Q) (digits : arg (option Z))
    : option Q :=
  let quant := arg_or (5 # 100) quant in
  let digits := arg_or (Some 3%Z) digits in
  match np_quantile data quant with
  | None => None
  | Some v =>
    match digits with
    | None => Some v
    | Some d => Some (py_round v d)
    end
  end.

(** [def CVaR(data, quant = .05, digits = 3)] *)
Definition CVaR (data : list Q) (quant : arg Q) (digits : arg (option Z))
    : option cell :=
  let quant := arg_or (5 # 100) quant in
  let digits := arg_or (Some 3%Z) digits in
  match np_quantile data quant with
  | None => None
  | Some VaR =>
    let tail := List.filter (fun x => Qle_bool x VaR) data in
    Some (round_opt digits (mean_list tail))
  end.

(** ** Reference notions of the specification *)

(** The median of a sample: the middle order statistic, or the midpoint
    of the two middle ones. *)
Definition median (data : list Q) : Q :=
  let a := np_sort data in
  let n := length a in
  if Nat.even n then (nth (n / 2 - 1) a 0 + nth (n / 2) a 0) / 2
  else nth (n / 2) a 0.

(** The arithmetic mean of a sample. *)
Definition mean (data : list Q) : Q :=
  sum_list data / inject_Z (Z.of_nat (length data)).

(** A quantile level set: strictly increasing probabilities in (0, 1). *)
Definition increasing (l : list Q) : Prop :=
  forall i j a b, (i < j)%nat -> l !! i = Some a -> l !! j = Some b -> a < b.

(** Prediction [j] of the row reaches the target [t]. *)
Definition reaches (row : list Q) (t : Q) (j : nat) : Prop :=
  exists p, row !! j = Some p /\ t <= p.

(** What the PIT value [v] of one observation is, for the prediction row
    [row], the target [t] and the levels [quantiles]. *)
Definition pit_correct (quantiles row : list Q) (t v : Q) : Prop :=
  ((exists j, reaches row t j) ->
   exists j, reaches row t j /\ quantiles !! j = Some v /\
     forall j' y', reaches row t j' -> quantiles !! j' = Some y' -> v <= y') /\
  (v == 1 <-> forall j, ~ reaches row t j) /\
  (reaches row t (length row - 1) -> is_Some (first_reaching row t) /\ v < 1).

(** The selection as the specification words it: the positions of the
    PACF values that exceed the threshold, kept when they lie beyond
    ceil(24 * freq) - 1 + operational_lag (resp. operational_lag). *)
Definition claimed_starting_point (freq : Q) (operational_lag : Z)
    (da_auction : bool) : Z :=
  if da_auction then ((Qceiling (24 * freq) - 1) + operational_lag)%Z
  else operational_lag.

Definition claimed_lags (PACF : list cell) (thres freq : Q)
    (operational_lag : Z) (da_auction : bool) : list Z :=
  List.filter (fun l => claimed_starting_point freq operational_lag da_auction <? l)%Z
    (map Z.of_nat (argwhere (abs_exceeds thres) PACF)).

(** ** pinball *)

(** [np.tile(a, (1, k))] on a two-dimensional array: [k] copies of the
    columns side by side. *)
Definition np_tile_cols (k : nat) (a : ndarray) : ndarray :=
  tabulate (nrows a) (ncols a * k) (fun i j => get a i (j mod ncols a)).

(** A one-dimensional array in an operation with two-dimensional ones:
    broadcasting aligns it with the last axis, as a single row. *)
Definition row_vector (l : list Q) : ndarray :=
  {| nrows := 1; ncols := length l; elems := [l] |}.

Definition pinball (prediction target : ndarray) (quantiles : list Q)
    : outcome ndarray :=
  let num_quant := length quantiles in
  let qs := row_vector quantiles in
  let* under := broadcast2 Qminus (np_tile_cols num_quant target) prediction in
  let* left := broadcast2 Qmult under qs in
  let* over := broadcast2 Qminus prediction (np_tile_cols num_quant target) in
  let* right := broadcast2 Qmult over (arr_map (fun x => 1 - x) qs) in
  broadcast2 Qmax left right.

(** The loss of one cell: the larger of the two linear penalties. *)
Definition pinball_cell (p t level : Q) : Q :=
  Qmax ((t - p) * level) ((p - t) * (1 - level)).

(** ** find_freq *)

(** The diagnostic print of the last branch is left out; a bare [return]
    is [None]. *)
Definition find_freq (freq_str : string) : option Q :=
  if String.eqb freq_str "1h" || String.eqb freq_str "H" then Some 1
  else if String.eqb freq_str "15min" then Some 4
  else if String.eqb freq_str "4h" then Some (1 # 4)
  else None.

(** The rows the docstring of create_supervised announces for reference
    time [t]: [X = [X_t, X_t-1, .., X_t-look_back]] and
    [Y = [Y_t+1, Y_t+2, .., Y_t+n_seq]]. *)
Definition lag_row (col : list cell) (look_back t : nat) : list cell :=
  map (fun i => nth (t - i) col NaN) (seq 0 (look_back + 1)).

Definition lead_row (col : list cell) (n_seq t : nat) : list cell :=
  map (fun j => nth (t + j) col NaN) (seq 1 n_seq).

(** * Properties *)

Local Open Scope nat_scope.

(** ** Slicing *)

Lemma clamp_index_le n k : clamp_index n k <= n.
Proof. unfold clamp_index. destruct (Z.ltb_spec k 0); lia. Qed.

Lemma length_slice_to {A} k (l : list A) :
  length (slice_to k l) = clamp_index (length l) k.
Proof.
  unfold slice_to. rewrite length_take.
  pose proof (clamp_index_le (length l) k). lia.
Qed.

Lemma length_slice_from {A} k (l : list A) :
  length (slice_from k l) = length l - clamp_index (length l) k.
Proof. unfold slice_from. by rewrite length_drop. Qed.

Lemma row_defined_spec row : row_defined row = true <-> Forall is_Some row.
Proof.
  unfold row_defined. rewrite forallb_forall, Forall_forall.
  split; intros H c Hc.
  - apply list_elem_of_In, H in Hc. destruct c; [eauto | discriminate].
  - apply list_elem_of_In, H in Hc. by destruct Hc as [v ->].
Qed.

Lemma drop_nan_rows_defined M : Forall (Forall is_Some) (drop_nan_rows M).
Proof.
  apply Forall_forall. intros row Hrow.
  apply list_elem_of_In, filter_In in Hrow. apply row_defined_spec, Hrow.
Qed.

Lemma length_stack_T n cols : length (stack_T n cols) = n.
Proof. unfold stack_T. by rewrite length_map, length_seq. Qed.

Lemma length_lead_matrix X n_seq : length (lead_matrix X n_seq) <= length X.
Proof.
  unfold lead_matrix, drop_nan_rows.
  etrans; [apply filter_length_le |].
  by rewrite length_map, length_stack_T, length_map.
Qed.

Lemma length_aligned_X col look_back n_seq :
  length (aligned_X col look_back n_seq) =
  length (lead_matrix (lag_matrix col look_back) n_seq).
Proof.
  unfold aligned_X. rewrite length_take.
  pose proof (length_lead_matrix (lag_matrix col look_back) n_seq). lia.
Qed.

Lemma filter_all {A} (f : A -> bool) l :
  (forall x, x ∈ l -> f x = true) -> List.filter f l = l.
Proof.
  induction l as [| x l IH]; intros H; simpl; [done |].
  rewrite (H x); [| by left]. f_equal. apply IH. intros y Hy. apply H. by right.
Qed.

Lemma filter_none {A} (f : A -> bool) l :
  (forall x, x ∈ l -> f x = false) -> List.filter f l = [].
Proof.
  induction l as [| x l IH]; intros H; simpl; [done |].
  rewrite (H x); [| by left]. apply IH. intros y Hy. apply H. by right.
Qed.

Lemma row_defined_false row : NaN ∈ row -> row_defined row = false.
Proof.
  intros Hin. apply not_true_iff_false. rewrite row_defined_spec, Forall_forall.
  intros H. by destruct (H _ Hin) as [v Hv].
Qed.

Lemma ndimage_shift_defined l i :
  row_defined l = true -> ndimage_shift l i = shift l i.
Proof. intros H. unfold ndimage_shift. by rewrite H. Qed.

Lemma exact_shift_defined d col : Forall is_Some col -> exact_shift d col.
Proof. destruct d; simpl; [done |]. apply row_defined_spec. Qed.

Lemma exact_shift_dec d col : exact_shift d col \/ ~ exact_shift d col.
Proof.
  destruct d as [v | c rows]; simpl; [by left |].
  destruct (row_defined col); [by left | right; discriminate].
Qed.

Lemma lag_matrix_by_exact d col look_back :
  exact_shift d col ->
  lag_matrix_by (lag_shift d) col look_back = lag_matrix col look_back.
Proof.
  destruct d as [v | c rows]; simpl; [done |]. intros Hcol.
  unfold lag_matrix_by, lag_matrix. do 2 f_equal. apply map_ext.
  intros i. by apply ndimage_shift_defined.
Qed.

Lemma nth_replicate_nan n r : nth r (replicate n NaN) NaN = NaN.
Proof.
  destruct (decide (r < n)) as [Hr | Hr].
  - apply nth_lookup_Some. by apply lookup_replicate_2.
  - apply nth_overflow. rewrite length_replicate. lia.
Qed.

(** A NaN in the column of an array leaves no row: every lagged copy is
    NaN throughout. *)
Lemma lag_matrix_by_nan d col look_back :
  ~ exact_shift d col -> lag_matrix_by (lag_shift d) col look_back = [].
Proof.
  destruct d as [v | c rows]; simpl; [by intros [] |]. intros Hcol.
  apply not_true_is_false in Hcol.
  unfold lag_matrix_by, drop_nan_rows, stack_T. cbv zeta.
  apply filter_none. intros row Hrow.
  apply list_elem_of_fmap in Hrow as (r & -> & _).
  apply row_defined_false. rewrite map_map. apply list_elem_of_fmap.
  exists 0. split; [| apply elem_of_seq; lia].
  unfold ndimage_shift. rewrite Hcol. by rewrite nth_replicate_nan.
Qed.

Lemma create_supervised_unfold d look_back n_seq train_split overlap col :
  column0 d = Some col ->
  create_supervised d look_back n_seq train_split overlap =
  let X0 := lag_matrix_by (lag_shift d) col look_back in
  let Y := lead_matrix X0 n_seq in
  let X := take (length Y) X0 in
  let start := (if overlap then train_split - Z.of_nat look_back - 1
                else train_split)%Z in
  Some {| trainX := slice_to train_split X; trainY := slice_to train_split Y;
          testX := slice_from start X; testY := slice_from start Y |}.
Proof. intros H. unfold create_supervised. by rewrite H. Qed.

Lemma create_supervised_eq d look_back n_seq train_split overlap col :
  column0 d = Some col ->
  exact_shift d col ->
  create_supervised d look_back n_seq train_split overlap =
  let X := aligned_X col look_back n_seq in
  let Y := lead_matrix (lag_matrix col look_back) n_seq in
  let start := (if overlap then train_split - Z.of_nat look_back - 1
                else train_split)%Z in
  Some {| trainX := slice_to train_split X; trainY := slice_to train_split Y;
          testX := slice_from start X; testY := slice_from start Y |}.
Proof.
  intros H Hexact. rewrite (create_supervised_unfold _ _ _ _ _ _ H). cbv zeta.
  by rewrite lag_matrix_by_exact.
Qed.

(** On an array whose column 0 holds a NaN the four matrices are empty. *)
Lemma create_supervised_nan d look_back n_seq train_split overlap col :
  column0 d = Some col ->
  ~ exact_shift d col ->
  create_supervised d look_back n_seq train_split overlap =
  Some {| trainX := []; trainY := []; testX := []; testY := [] |}.
Proof.
  intros H Hnan. rewrite (create_supervised_unfold _ _ _ _ _ _ H). cbv zeta.
  rewrite lag_matrix_by_nan by done.
  assert (lead_matrix [] n_seq = []) as -> by reflexivity.
  unfold slice_to, slice_from. by rewrite !take_nil, !drop_nil.
Qed.

(** ** Sample runs *)

Example create_supervised_sample :
  create_supervised
    (Series [Some 1%Q; Some 2%Q; Some 3%Q; Some 4%Q; Some 5%Q; Some 6%Q])
    1 1 3%Z true =
  Some {| trainX := [[Some 2%Q; Some 1%Q]; [Some 3%Q; Some 2%Q];
                     [Some 4%Q; Some 3%Q]];
          trainY := [[Some 3%Q]; [Some 4%Q]; [Some 5%Q]];
          testX := [[Some 3%Q; Some 2%Q]; [Some 4%Q; Some 3%Q];
                    [Some 5%Q; Some 4%Q]];
          testY := [[Some 4%Q]; [Some 5%Q]; [Some 6%Q]] |}.
Proof. reflexivity. Qed.

Example create_supervised_no_overlap_sample :
  create_supervised
    (NdArray 1 [[Some 1%Q]; [Some 2%Q]; [Some 3%Q]; [Some 4%Q]; [Some 5%Q]])
    1 0 (-1)%Z false =
  Some {| trainX := [[Some 2%Q; Some 1%Q]; [Some 3%Q; Some 2%Q];
                     [Some 4%Q; Some 3%Q]];
          trainY := [[]; []; []];
          testX := [[Some 5%Q; Some 4%Q]];
          testY := [[]] |}.
Proof. reflexivity. Qed.

Example create_supervised_array_nan_sample :
  create_supervised
    (NdArray 1 [[Some 1%Q]; [None]; [Some 3%Q]; [Some 4%Q]; [Some 5%Q];
                [Some 6%Q]])
    1 1 (-1)%Z false =
  Some {| trainX := []; trainY := []; testX := []; testY := [] |}.
Proof. reflexivity. Qed.

Example create_supervised_series_nan_sample :
  create_supervised
    (Series [Some 1%Q; None; Some 3%Q; Some 4%Q; Some 5%Q; Some 6%Q])
    1 1 (-1)%Z false =
  Some {| trainX := [[Some 4%Q; Some 3%Q]]; trainY := [[Some 5%Q]];
          testX := [[Some 5%Q; Some 4%Q]]; testY := [[Some 6%Q]] |}.
Proof. reflexivity. Qed.

Example eval_point_pred_zero_actual_sample :
  eval_point_pred (fun x => x) (mkArr 1 2 [[1; 2]]%Q) (mkArr 1 2 [[0; 2]]%Q) None
  = Returned (NaN, Some (1 # 2)%Q, Some (1 # 2)%Q).
Proof. reflexivity. Qed.

Example supervised_set_sample :
  supervised_set [("x"%string, [Some 1%Q; Some 2%Q; Some 3%Q; Some 4%Q])]
    "x" 1 1 0 =
  Some ([("x"%string, [Some 2%Q; Some 3%Q]);
         ("x_lag_1"%string, [Some 1%Q; Some 2%Q])],
        [("x_lead_1"%string, [Some 3%Q; Some 4%Q])]).
Proof. reflexivity. Qed.

(** ** create_supervised: aligned and fully defined outputs *)

(** C1. For every input whose lagged series can be read, every look_back,
    horizon, split point and overlap mode, create_supervised returns four
    matrices with len(trainX) = len(trainY) and len(testX) = len(testY),
    and no cell of any returned row is NaN. *)
Theorem create_supervised_aligned d look_back n_seq train_split overlap col :
  column0 d = Some col ->
  exists r,
    create_supervised d look_back n_seq train_split overlap = Some r /\
    length (trainX r) = length (trainY r) /\
    length (testX r) = length (testY r) /\
    Forall (Forall is_Some) (trainX r) /\
    Forall (Forall is_Some) (trainY r) /\
    Forall (Forall is_Some) (testX r) /\
    Forall (Forall is_Some) (testY r).
Proof.
  intros Hcol.
  rewrite (create_supervised_unfold _ _ _ _ _ _ Hcol). cbv zeta.
  set (X0 := lag_matrix_by (lag_shift d) col look_back).
  set (Y := lead_matrix X0 n_seq).
  eexists. split; [reflexivity |].
  cbn [trainX trainY testX testY].
  assert (length (take (length Y) X0) = length Y) as Hlen.
  { rewrite length_take. pose proof (length_lead_matrix X0 n_seq). fold Y in H. lia. }
  assert (Forall (Forall is_Some) (take (length Y) X0)) as HX
    by (apply Forall_take, drop_nan_rows_defined).
  assert (Forall (Forall is_Some) Y) as HY by apply drop_nan_rows_defined.
  rewrite !length_slice_to, !length_slice_from, Hlen.
  repeat split; try done.
  - by apply Forall_take.
  - by apply Forall_take.
  - by apply Forall_drop.
  - by apply Forall_drop.
Qed.

Lemma create_supervised_aligned_witness :
  exists r,
    create_supervised (Series [Some 1%Q; None; Some 3%Q; Some 4%Q; Some 5%Q])
      1 1 2%Z false = Some r /\
    length (trainX r) = length (trainY r) /\
    length (testX r) = length (testY r) /\
    Forall (Forall is_Some) (trainX r) /\
    Forall (Forall is_Some) (trainY r) /\
    Forall (Forall is_Some) (testX r) /\
    Forall (Forall is_Some) (testY r).
Proof.
  apply (create_supervised_aligned _ 1 1 2%Z false
           [Some 1%Q; None; Some 3%Q; Some 4%Q; Some 5%Q]).
  reflexivity.
Defined.

(** ** create_supervised: the overlap between train and test *)

(** With at least [k] rows before a split point that lies within the
    table, the [k] rows that start at [split - k] are the last [k] rows
    before the split. *)
Lemma overlap_rows {A} (l : list A) (split : Z) (k : nat) :
  (split <= Z.of_nat (length l))%Z ->
  k <= clamp_index (length l) split ->
  take k (slice_from (split - Z.of_nat k) l) =
  drop (length (slice_to split l) - k) (slice_to split l).
Proof.
  intros Hsplit Hk. rewrite length_slice_to. unfold slice_from, slice_to.
  assert (clamp_index (length l) (split - Z.of_nat k) =
          clamp_index (length l) split - k) as ->.
  { unfold clamp_index in *.
    destruct (Z.ltb_spec split 0), (Z.ltb_spec (split - Z.of_nat k) 0); lia. }
  rewrite take_drop_commute. f_equal. f_equal. lia.
Qed.

(** C2, as stated, fails: with a split point beyond the last aligned row
    the training set holds all 4 rows (at least look_back + 1 = 2), while
    the test set, which starts at row 10 - 1 - 1 = 8, is empty. *)
Lemma create_supervised_overlap_counterexample :
  exists r,
    create_supervised
      (Series [Some 1%Q; Some 2%Q; Some 3%Q; Some 4%Q; Some 5%Q; Some 6%Q])
      1 1 10%Z true = Some r /\
    trainX r <> [] /\
    1 + 1 <= length (trainX r) /\
    take (1 + 1) (testX r) <> drop (length (trainX r) - (1 + 1)) (trainX r) /\
    take (1 + 1) (testY r) <> drop (length (trainY r) - (1 + 1)) (trainY r).
Proof.
  eexists. split; [reflexivity |]. vm_compute.
  repeat split; try discriminate. lia.
Qed.

(** C2, amended. In overlap mode, when the split point does not exceed the
    number of aligned rows and the training set has at least
    look_back + 1 rows, the first look_back + 1 rows of testX (testY) are
    the last look_back + 1 rows of trainX (trainY). *)
Theorem create_supervised_overlap d look_back n_seq train_split col r :
  column0 d = Some col ->
  (train_split <= Z.of_nat (length (aligned_X col look_back n_seq)))%Z ->
  create_supervised d look_back n_seq train_split true = Some r ->
  look_back + 1 <= length (trainX r) ->
  take (look_back + 1) (testX r) =
    drop (length (trainX r) - (look_back + 1)) (trainX r) /\
  take (look_back + 1) (testY r) =
    drop (length (trainY r) - (look_back + 1)) (trainY r).
Proof.
  intros Hcol Hsplit Hr Hrows.
  destruct (exact_shift_dec d col) as [Hexact | Hnan];
    [| rewrite (create_supervised_nan _ _ _ _ _ _ Hcol Hnan) in Hr;
       injection Hr as <-; simpl in Hrows; lia].
  rewrite (create_supervised_eq _ _ _ _ _ _ Hcol Hexact) in Hr. cbv zeta in Hr.
  injection Hr as <-. cbn [trainX trainY testX testY] in *.
  pose proof (length_aligned_X col look_back n_seq) as Hlen.
  rewrite length_slice_to in Hrows.
  replace (train_split - Z.of_nat look_back - 1)%Z
    with (train_split - Z.of_nat (look_back + 1))%Z by lia.
  split; apply overlap_rows; try done.
  - by rewrite <- Hlen.
  - by rewrite <- Hlen.
Qed.

Lemma create_supervised_overlap_witness :
  let r := {| trainX := [[Some 2%Q; Some 1%Q]; [Some 3%Q; Some 2%Q];
                         [Some 4%Q; Some 3%Q]];
              trainY := [[Some 3%Q]; [Some 4%Q]; [Some 5%Q]];
              testX := [[Some 3%Q; Some 2%Q]; [Some 4%Q; Some 3%Q];
                        [Some 5%Q; Some 4%Q]];
              testY := [[Some 4%Q]; [Some 5%Q]; [Some 6%Q]] |} in
  take 2 (testX r) = drop (length (trainX r) - 2) (trainX r) /\
  take 2 (testY r) = drop (length (trainY r) - 2) (trainY r).
Proof.
  intros r.
  apply (create_supervised_overlap
           (Series [Some 1%Q; Some 2%Q; Some 3%Q; Some 4%Q; Some 5%Q; Some 6%Q])
           1 1 3%Z
           [Some 1%Q; Some 2%Q; Some 3%Q; Some 4%Q; Some 5%Q; Some 6%Q] r).
  - reflexivity.
  - vm_compute. discriminate.
  - reflexivity.
  - simpl. lia.
Defined.

(** ** supervised_set at lag = 0 and lead = 0 *)

Lemma slice_zero_zero {A} (l : list A) : slice 0 0 l = [].
Proof. unfold slice, clamp_index. by cbn. Qed.

(** With lag = 0 and lead = 0 the row slice is [df[0:-0]], that is
    [df[0:0]]: both tables keep no row at all. *)
Lemma supervised_set_zero df var_name col operational_lag :
  df_get df var_name = Some col ->
  (operational_lag <= 0)%Z ->
  supervised_set df var_name 0 0 operational_lag = Some ([(var_name, [])], []).
Proof.
  intros Hcol Hop. unfold supervised_set. rewrite Hcol.
  destruct (Z.ltb_spec 0 operational_lag); [lia |].
  unfold range1, df_rows, df_drop.
  change (Z.to_nat 0) with 0. change (- 0)%Z with 0%Z.
  cbn [seq map fold_left List.filter fst snd].
  by rewrite slice_zero_zero, String.eqb_refl.
Qed.

(** C3. On the table with the single column x = [1, 2, 3],
    supervised_set with lag = 0 and lead = 0 returns a lag table that has
    only the target column but none of its three rows, and a lead table
    without columns. *)
Theorem supervised_set_zero_drops_all_rows :
  let df := [("x"%string, [Some 1%Q; Some 2%Q; Some 3%Q])] in
  exists lag_table lead_table,
    supervised_set df "x" 0 0 0 = Some (lag_table, lead_table) /\
    df_columns lag_table = ["x"%string] /\
    df_len df = 3 /\
    df_len lag_table = 0 /\
    df_columns lead_table = [].
Proof. intros df. do 2 eexists. split; [reflexivity |]. done. Qed.

(** ** Shape checks of the scoring functions *)

Lemma shape_eqb_spec (s t : nat * nat) : shape_eqb s t = true <-> s = t.
Proof.
  destruct s as [a b], t as [c d]. unfold shape_eqb. simpl.
  rewrite andb_true_iff, !Nat.eqb_eq. split; [intros []; congruence |].
  intros [= -> ->]. done.
Qed.

Lemma broadcast_dim_refl n : broadcast_dim n n = Some n.
Proof. unfold broadcast_dim. by rewrite Nat.eqb_refl. Qed.

Lemma broadcast2_returns f a b :
  broadcastable (shape a) (shape b) = true ->
  exists c, broadcast2 f a b = Returned c.
Proof.
  unfold broadcastable, broadcast2, shape. simpl.
  destruct (broadcast_dim (nrows a) (nrows b)),
    (broadcast_dim (ncols a) (ncols b)); try discriminate. eauto.
Qed.

Lemma broadcast2_fails f a b :
  broadcastable (shape a) (shape b) = false ->
  broadcast2 f a b = ValueError.
Proof.
  unfold broadcastable, broadcast2, shape. simpl.
  destruct (broadcast_dim (nrows a) (nrows b)),
    (broadcast_dim (ncols a) (ncols b)); try discriminate; done.
Qed.

Lemma broadcastable_refl s : broadcastable s s = true.
Proof. unfold broadcastable. by rewrite !broadcast_dim_refl. Qed.

(** C4, as stated, fails: brier_score has no shape check. On a 2x1
    prediction and a 1x2 outcome array, whose shapes differ, the
    difference is broadcast to 2x2 and a score is returned. *)
Lemma scoring_shape_check_counterexample :
  let predictions := mkArr 2 1 [[1]; [0]]%Q in
  let actual := mkArr 1 2 [[1; 0]]%Q in
  shape predictions <> shape actual /\
  brier_score predictions actual None = Returned (Some (1 # 2)%Q).
Proof. split; [discriminate | reflexivity]. Qed.

(** C4, amended. eval_point_pred raises the assertion "Shape missmatch"
    exactly when the two shapes differ and returns its three metrics
    exactly when they are equal. brier_score never raises an assertion:
    it returns a score whenever the two shapes can be broadcast together,
    equal or not, and raises the broadcasting ValueError otherwise. *)
Theorem scoring_shape_check (sqrt : Q -> Q) predictions actual digits :
  (eval_point_pred sqrt predictions actual digits
     = AssertionError "Shape missmatch"
   <-> shape predictions <> shape actual) /\
  ((exists v, eval_point_pred sqrt predictions actual digits = Returned v)
   <-> shape predictions = shape actual) /\
  (forall msg, brier_score predictions actual digits <> AssertionError msg) /\
  ((exists v, brier_score predictions actual digits = Returned v)
   <-> broadcastable (shape predictions) (shape actual) = true) /\
  (brier_score predictions actual digits = ValueError
   <-> broadcastable (shape predictions) (shape actual) = false).
Proof.
  assert (shape predictions = shape actual ->
          exists v, eval_point_pred sqrt predictions actual digits = Returned v)
    as Hok.
  { intros Heq. unfold eval_point_pred.
    rewrite (proj2 (shape_eqb_spec _ _) Heq). cbn [negb].
    destruct (broadcast2_returns Qminus predictions actual) as [diff Hd].
    { rewrite Heq. apply broadcastable_refl. }
    rewrite Hd. cbn [bind].
    destruct (broadcast2_returns Qdiv diff actual) as [ratio Hr].
    { unfold broadcast2 in Hd. injection Heq as Hr Hc. rewrite Hr, Hc in Hd.
      rewrite !broadcast_dim_refl in Hd. injection Hd as <-.
      apply broadcastable_refl. }
    rewrite Hr. cbn [bind]. eauto. }
  assert (shape predictions <> shape actual ->
          eval_point_pred sqrt predictions actual digits
            = AssertionError "Shape missmatch") as Hfail.
  { intros Hne. unfold eval_point_pred.
    destruct (shape_eqb (shape predictions) (shape actual)) eqn:E; [| done].
    by apply shape_eqb_spec in E. }
  assert (forall s t : nat * nat, s = t \/ s <> t) as Hdec.
  { intros s t. destruct (decide (s = t)); auto. }
  split; [| split; [| split; [| split]]].
  - split; [| done]. intros H Heq. destruct (Hok Heq) as [v Hv]. congruence.
  - split; [| done]. intros [v Hv].
    destruct (Hdec (shape predictions) (shape actual)) as [| Hne]; [done |].
    rewrite (Hfail Hne) in Hv. discriminate.
  - intros msg. unfold brier_score.
    destruct (broadcastable (shape predictions) (shape actual)) eqn:E.
    + destruct (broadcast2_returns Qminus _ _ E) as [c ->]. discriminate.
    + by rewrite (broadcast2_fails _ _ _ E).
  - unfold brier_score. split.
    + intros [v Hv].
      destruct (broadcastable (shape predictions) (shape actual)) eqn:E; [done |].
      rewrite (broadcast2_fails _ _ _ E) in Hv. discriminate.
    + intros E. destruct (broadcast2_returns Qminus _ _ E) as [c ->].
      cbn [bind]. eauto.
  - unfold brier_score. split.
    + intros Hv.
      destruct (broadcastable (shape predictions) (shape actual)) eqn:E; [| done].
      destruct (broadcast2_returns Qminus _ _ E) as [c Hc].
      rewrite Hc in Hv. discriminate.
    + intros E. by rewrite (broadcast2_fails _ _ _ E).
Qed.

(** ** pit_eval *)

Local Open Scope Q_scope.

Lemma argwhere_from_head {A} (f : A -> bool) i l :
  match argwhere_from f i l with
  | [] => forall j x, l !! j = Some x -> f x = false
  | k :: _ =>
    (i <= k)%nat /\
    (exists x, l !! (k - i)%nat = Some x /\ f x = true) /\
    (forall j x, (j < k - i)%nat -> l !! j = Some x -> f x = false)
  end.
Proof.
  revert i. induction l as [| y l IH]; intros i; simpl.
  - intros j x. by rewrite lookup_nil.
  - destruct (f y) eqn:Hy.
    + split; [lia |]. rewrite Nat.sub_diag. split; [eauto |]. intros; lia.
    + specialize (IH (S i)). destruct (argwhere_from f (S i) l) as [| k ks].
      * intros [| j] x; simpl; [congruence | apply IH].
      * destruct IH as (Hle & (x & Hx & Hfx) & Hmin).
        split; [lia |]. split.
        -- exists x. split; [| done].
           replace (k - i)%nat with (S (k - S i)) by lia. done.
        -- intros [| j] z Hj; simpl; [congruence |].
           apply Hmin. lia.
Qed.

Lemma first_reaching_Some row t j :
  first_reaching row t = Some j ->
  reaches row t j /\ forall j', (j' < j)%nat -> ~ reaches row t j'.
Proof.
  unfold first_reaching, argwhere.
  pose proof (argwhere_from_head (fun v => Qle_bool t v) 0 row) as H.
  destruct (argwhere_from _ 0 row) as [| k ks]; [discriminate |].
  intros [= <-]. destruct H as (_ & (x & Hx & Hfx) & Hmin).
  rewrite Nat.sub_0_r in *. split.
  - exists x. split; [done |]. by apply Qle_bool_iff.
  - intros j' Hj' (p & Hp & Htp). apply Qle_bool_iff in Htp.
    rewrite (Hmin _ _ Hj' Hp) in Htp. discriminate.
Qed.

Lemma first_reaching_None row t :
  first_reaching row t = None -> forall j, ~ reaches row t j.
Proof.
  unfold first_reaching, argwhere.
  pose proof (argwhere_from_head (fun v => Qle_bool t v) 0 row) as H.
  destruct (argwhere_from _ 0 row) as [| k ks]; [| discriminate].
  intros _ j (p & Hp & Htp). apply Qle_bool_iff in Htp.
  rewrite (H _ _ Hp) in Htp. discriminate.
Qed.

Lemma pit_value_correct quantiles row t :
  increasing quantiles ->
  Forall (fun y => 0 < y /\ y < 1) quantiles ->
  (length row <= length quantiles)%nat ->
  exists v, pit_value quantiles row t = Returned v /\
            pit_correct quantiles row t v.
Proof.
  intros Hinc Hrange Hlen. unfold pit_value.
  destruct (first_reaching row t) as [j |] eqn:Hfirst.
  - destruct (first_reaching_Some _ _ _ Hfirst) as [Hj Hmin].
    assert (j < length row)%nat as Hjlen.
    { destruct Hj as (p & Hp & _). by apply lookup_lt_Some in Hp. }
    destruct (lookup_lt_is_Some_2 quantiles j) as [y Hy]; [lia |].
    rewrite Hy. exists y. split; [done |].
    assert (y < 1) as Hy1.
    { eapply Forall_lookup_1 in Hrange; [| exact Hy]. apply Hrange. }
    split; [| split].
    + intros _. exists j. split; [done |]. split; [done |].
      intros j' y' Hj' Hy'.
      destruct (Nat.lt_trichotomy j' j) as [Hlt | [-> | Hgt]].
      * by destruct (Hmin _ Hlt).
      * rewrite Hy in Hy'. injection Hy' as <-. apply Qle_refl.
      * apply Qlt_le_weak. eapply Hinc; eauto.
    + split.
      * intros Hv. rewrite Hv in Hy1. by apply Qlt_irrefl in Hy1.
      * intros Hnone. by destruct (Hnone j).
    + intros _. split; [eauto | done].
  - exists 1. split; [done |].
    pose proof (first_reaching_None _ _ Hfirst) as Hnone.
    split; [| split].
    + intros [j Hj]. by destruct (Hnone j).
    + split; [done | reflexivity].
    + intros Hlast. by destruct (Hnone _ Hlast).
Qed.

Lemma pit_rows_correct quantiles quant_pred target i :
  increasing quantiles ->
  Forall (fun y => 0 < y /\ y < 1) quantiles ->
  Forall (fun row => length row <= length quantiles)%nat quant_pred ->
  (i + length target <= length quant_pred)%nat ->
  exists PIT, pit_rows quantiles quant_pred target i = Returned PIT /\
    length PIT = length target /\
    forall k t row, target !! k = Some t -> quant_pred !! (i + k)%nat = Some row ->
      exists v, PIT !! k = Some v /\ pit_correct quantiles row t v.
Proof.
  intros Hinc Hrange Hcols. revert i.
  induction target as [| t target IH]; intros i Hrows; simpl.
  - exists []. split; [done |]. split; [done |]. intros k t row. by rewrite lookup_nil.
  - simpl in Hrows.
    destruct (lookup_lt_is_Some_2 quant_pred i) as [row Hrow]; [lia |].
    rewrite Hrow.
    destruct (pit_value_correct quantiles row t Hinc Hrange) as (v & Hv & Hcorrect).
    { eapply Forall_lookup_1 in Hcols; [| exact Hrow]. exact Hcols. }
    rewrite Hv. cbn [bind].
    destruct (IH (S i)) as (PIT & HPIT & Hlen & Hall); [lia |].
    rewrite HPIT. cbn [bind]. exists (v :: PIT).
    split; [done |]. split; [simpl; lia |].
    intros [| k] t' row' Ht' Hrow'.
    + simpl in Ht'. injection Ht' as <-. rewrite Nat.add_0_r in Hrow'.
      rewrite Hrow in Hrow'. injection Hrow' as <-. eauto.
    + simpl in Ht'. replace (i + S k)%nat with (S i + k)%nat in Hrow' by lia.
      apply (Hall k t' row' Ht' Hrow').
Qed.

(** C5. For a level set that is strictly increasing within (0, 1) and a
    prediction matrix with a row per observation and a level per column,
    pit_eval returns one value per observation. When some prediction of
    row i reaches target[i] the value is the smallest level whose
    prediction reaches it; the value is 1 exactly when no prediction of
    the row reaches the target; and when the last column reaches the
    target the value does not come from the fallback and is below 1. *)
Theorem pit_eval_correct target quant_pred quantiles :
  increasing quantiles ->
  Forall (fun y => 0 < y /\ y < 1) quantiles ->
  Forall (fun row => length row <= length quantiles)%nat quant_pred ->
  (length target <= length quant_pred)%nat ->
  exists PIT, pit_eval target quant_pred quantiles = Returned PIT /\
    length PIT = length target /\
    forall i t row, target !! i = Some t -> quant_pred !! i = Some row ->
      exists v, PIT !! i = Some v /\ pit_correct quantiles row t v.
Proof.
  intros Hinc Hrange Hcols Hrows. unfold pit_eval.
  apply (pit_rows_correct quantiles quant_pred target 0); auto.
Qed.

Lemma pit_eval_correct_witness :
  let quantiles := [1 # 4; 1 # 2; 3 # 4] in
  let quant_pred := [[1; 2; 3]; [1; 2; 3]] in
  let target := [2; 5] in
  exists PIT, pit_eval target quant_pred quantiles = Returned PIT /\
    length PIT = length target /\
    forall i t row, target !! i = Some t -> quant_pred !! i = Some row ->
      exists v, PIT !! i = Some v /\ pit_correct quantiles row t v.
Proof.
  intros quantiles quant_pred target.
  apply (pit_eval_correct [2; 5] [[1; 2; 3]; [1; 2; 3]] [1 # 4; 1 # 2; 3 # 4]).
  - intros i j a b Hij Hi Hj.
    destruct i as [| [| [| i]]], j as [| [| [| j]]];
      simpl in Hi, Hj; try lia; try discriminate;
      injection Hi as <-; injection Hj as <-; reflexivity.
  - repeat constructor.
  - repeat constructor.
  - simpl. lia.
Defined.

Example pit_eval_values :
  pit_eval [2; 5] [[1; 2; 3]; [1; 2; 3]] [1 # 4; 1 # 2; 3 # 4]
  = Returned [1 # 2; 1].
Proof. reflexivity. Qed.

(** ** lagged_predictors_pd: the selected lags and the new columns *)

Local Open Scope Z_scope.

Lemma df_get_set_eq tbl name col : df_get (df_set tbl name col) name = Some col.
Proof.
  induction tbl as [| [n c] tbl IH]; simpl.
  - by rewrite String.eqb_refl.
  - destruct (String.eqb n name) eqn:E; simpl; by rewrite E.
Qed.

Lemma df_get_set_ne tbl name name' col :
  name <> name' -> df_get (df_set tbl name col) name' = df_get tbl name'.
Proof.
  intros Hne. induction tbl as [| [n c] tbl IH]; simpl.
  - destruct (String.eqb name name') eqn:E; [| done].
    by apply String.eqb_eq in E.
  - destruct (String.eqb n name) eqn:E; simpl.
    + apply String.eqb_eq in E as ->.
      destruct (String.eqb name name') eqn:E'; [| done].
      by apply String.eqb_eq in E'.
    + by rewrite IH.
Qed.

Lemma lag_name_ne_col col_name lag : lag_name col_name lag <> col_name.
Proof.
  unfold lag_name. generalize (pretty lag). intros s.
  induction col_name as [| a col_name IH]; simpl; [discriminate |].
  intros [= H]. by apply IH.
Qed.

Lemma lag_name_inj col_name : Inj (=) (=) (lag_name col_name).
Proof.
  intros a b H. unfold lag_name in H.
  apply (inj (String.append _)) in H. by apply (inj pretty) in H.
Qed.

Lemma elem_of_argwhere_from {A} (f : A -> bool) i l k :
  k ∈ argwhere_from f i l <->
  (i <= k)%nat /\ exists x, l !! (k - i)%nat = Some x /\ f x = true.
Proof.
  revert i. induction l as [| y l IH]; intros i; simpl.
  - rewrite elem_of_nil. split; [done |]. intros (_ & x & Hx & _).
    by rewrite lookup_nil in Hx.
  - assert (k ∈ argwhere_from f (S i) l <->
            (i < k)%nat /\ exists x, (y :: l) !! (k - i)%nat = Some x /\ f x = true)
      as Htail.
    { rewrite IH. split.
      - intros (Hle & x & Hx & Hfx). split; [lia |]. exists x. split; [| done].
        replace (k - i)%nat with (S (k - S i)) by lia. done.
      - intros (Hlt & x & Hx & Hfx). split; [lia |]. exists x. split; [| done].
        replace (k - i)%nat with (S (k - S i)) in Hx by lia. done. }
    destruct (f y) eqn:Hy.
    + rewrite elem_of_cons, Htail. split.
      * intros [-> | (Hlt & Hx)]; [| split; [lia | done]].
        split; [lia |]. rewrite Nat.sub_diag. eauto.
      * intros (Hle & x & Hx & Hfx).
        destruct (decide (k = i)) as [-> | Hne]; [by left | right].
        split; [lia | eauto].
    + rewrite Htail. split.
      * intros (Hlt & Hx). split; [lia | done].
      * intros (Hle & x & Hx & Hfx).
        destruct (decide (k = i)) as [-> | Hne]; [| split; [lia | eauto]].
        rewrite Nat.sub_diag in Hx. simpl in Hx. congruence.
Qed.

Lemma NoDup_argwhere_from {A} (f : A -> bool) i l : NoDup (argwhere_from f i l).
Proof.
  revert i. induction l as [| y l IH]; intros i; simpl; [constructor |].
  destruct (f y); [| apply IH].
  constructor; [| apply IH].
  rewrite elem_of_argwhere_from. lia.
Qed.

Lemma elem_of_candidate_lags PACF thres lag :
  lag ∈ candidate_lags PACF thres <->
  exists k c, PACF !! k = Some c /\ abs_exceeds thres c = true /\
              lag = Z.of_nat k - 1.
Proof.
  unfold candidate_lags, argwhere. rewrite list_elem_of_fmap. split.
  - intros (k & -> & Hk). apply elem_of_argwhere_from in Hk.
    destruct Hk as (_ & c & Hc & Hfc). rewrite Nat.sub_0_r in Hc. eauto.
  - intros (k & c & Hc & Hfc & ->). exists k. split; [done |].
    apply elem_of_argwhere_from. split; [lia |]. rewrite Nat.sub_0_r. eauto.
Qed.

Lemma NoDup_selected_lags PACF thres freq operational_lag da_auction :
  NoDup (selected_lags PACF thres freq operational_lag da_auction).
Proof.
  unfold selected_lags, candidate_lags, argwhere.
  apply NoDup_ListNoDup, List.NoDup_filter, NoDup_ListNoDup.
  apply NoDup_fmap_2; [| apply NoDup_argwhere_from].
  intros a b. lia.
Qed.

(** The loop over [Lags] on a table whose column [col_name] is [col]. *)
Lemma add_lag_columns col_name col Lags : forall tbl names,
  df_get tbl col_name = Some col ->
  NoDup Lags ->
  exists tbl',
    fold_left (add_lag_column col_name) Lags (Some (tbl, names)) =
      Some (tbl', names ++ map (lag_name col_name) Lags) /\
    df_get tbl' col_name = Some col /\
    (forall lag, lag ∈ Lags ->
       df_get tbl' (lag_name col_name lag) = Some (shift col lag)) /\
    (forall name, (forall lag, lag ∈ Lags -> name <> lag_name col_name lag) ->
       df_get tbl' name = df_get tbl name).
Proof.
  induction Lags as [| lag Lags IH]; intros tbl names Hcol Hnodup.
  - exists tbl. simpl. rewrite app_nil_r. repeat split; try done.
    intros lag Hlag. by apply elem_of_nil in Hlag.
  - apply NoDup_cons in Hnodup as [Hnotin Hnodup].
    cbn [fold_left add_lag_column]. rewrite Hcol. fold (lag_name col_name lag).
    set (tbl1 := df_set tbl (lag_name col_name lag) (shift col lag)).
    assert (df_get tbl1 col_name = Some col) as Hcol1.
    { unfold tbl1. rewrite df_get_set_ne; [done | apply lag_name_ne_col]. }
    destruct (IH tbl1 (names ++ [lag_name col_name lag]) Hcol1 Hnodup)
      as (tbl' & Hfold & Hcol' & Hnew & Hold).
    exists tbl'. split; [| split; [done | split]].
    + rewrite Hfold. by rewrite <- app_assoc.
    + intros lag' Hlag'. apply elem_of_cons in Hlag' as [-> | Hin]; [| by apply Hnew].
      rewrite Hold; [apply df_get_set_eq |].
      intros lag' Hin Heq. apply lag_name_inj in Heq. by subst.
    + intros name Hname. rewrite Hold.
      * unfold tbl1. apply df_get_set_ne. intros Heq.
        apply (Hname lag); [by left | done].
      * intros lag' Hin. apply Hname. by right.
Qed.

Lemma abs_exceeds_spec thres c :
  abs_exceeds thres c = true <-> exists v, c = Some v /\ (thres < Qabs v)%Q.
Proof.
  destruct c as [v |]; simpl.
  - rewrite negb_true_iff, <- not_true_iff_false, Qle_bool_iff. split.
    + intros H. exists v. split; [done |]. by apply Qnot_le_lt.
    + intros (? & [= <-] & H). by apply Qlt_not_le.
  - split; [discriminate | by intros (? & ? & _)].
Qed.

Lemma elem_of_selected_lags PACF thres freq operational_lag da_auction lag :
  lag ∈ selected_lags PACF thres freq operational_lag da_auction <->
  exists k v, PACF !! k = Some (Some v) /\ (thres < Qabs v)%Q /\
              lag = Z.of_nat k - 1 /\
              (if da_auction then py_int (freq * 24) - 1 + operational_lag
               else operational_lag) < lag.
Proof.
  unfold selected_lags, starting_point.
  rewrite list_elem_of_In, filter_In, <- list_elem_of_In.
  rewrite elem_of_candidate_lags, Z.ltb_lt. split.
  - intros [(k & c & Hk & Hc & ->) Hlt].
    apply abs_exceeds_spec in Hc as (v & -> & Hv). eauto 10.
  - intros (k & v & Hk & Hv & -> & Hlt). split; [| done].
    exists k, (Some v). split; [done |]. split; [| done].
    apply abs_exceeds_spec. eauto.
Qed.

(** What a call of lagged_predictors_pd does to the store and returns. *)
Lemma lagged_predictors_pd_run pacf (h : store) df tbl col_name col
    freq d operational_lag thres da_auction :
  h !! df = Some tbl ->
  df_get tbl col_name = Some col ->
  let Lags := selected_lags (pacf col d) thres freq operational_lag da_auction in
  exists tbl',
    lagged_predictors_pd pacf h df col_name freq d operational_lag thres da_auction
      = Some (<[df := tbl']> h, (df, map (lag_name col_name) Lags)) /\
    df_get tbl' col_name = Some col /\
    (forall lag, lag ∈ Lags ->
       df_get tbl' (lag_name col_name lag) = Some (shift col lag)) /\
    (forall name, (forall lag, lag ∈ Lags -> name <> lag_name col_name lag) ->
       df_get tbl' name = df_get tbl name) /\
    (Lags = [] -> tbl' = tbl).
Proof.
  intros Hdf Hcol Lags. unfold lagged_predictors_pd. rewrite Hdf, Hcol.
  fold Lags.
  destruct (add_lag_columns col_name col Lags tbl [] Hcol)
    as (tbl' & Hfold & Hcol' & Hnew & Hold).
  { apply NoDup_selected_lags. }
  exists tbl'. rewrite Hfold. simpl. repeat split; try done.
  intros Hnil. rewrite Hnil in Hfold. simpl in Hfold. congruence.
Qed.

(** C6, as stated, fails. With PACF = [1, 0.5, 0], threshold 0.1, no
    day-ahead mode and no operational lag, position 1 is the one position
    beyond the starting point 0 whose PACF value exceeds the threshold,
    yet the code, which subtracts 1 from every position before the
    filter, selects no lag and adds no column. *)
Lemma lagged_predictors_pd_counterexample :
  let pacf := fun (_ : list cell) (_ : nat) =>
                [Some 1%Q; Some (1 # 2)%Q; Some 0%Q] in
  let tbl := [("x"%string, [Some 1%Q; Some 2%Q; Some 3%Q])] in
  let h : store := {[ 0%nat := tbl ]} in
  claimed_lags (pacf [] 2%nat) (1 # 10) 1 0 false = [1] /\
  selected_lags (pacf [] 2%nat) (1 # 10) 1 0 false = [] /\
  exists h',
    lagged_predictors_pd pacf h 0%nat "x" 1 2 0 (1 # 10) false
      = Some (h', (0%nat, [])) /\
    h' !! 0%nat = Some tbl.
Proof.
  intros pacf tbl h. split; [reflexivity |]. split; [reflexivity |].
  eexists. split; [reflexivity |]. by rewrite lookup_insert_eq.
Qed.

(** C6, amended. On a table that holds the column, lagged_predictors_pd
    selects the values k - 1 for the positions k whose absolute PACF value
    exceeds the threshold, keeps those strictly greater than the starting
    point, which is int(24 * freq) - 1 + operational_lag (truncation toward
    zero) in da_auction mode and operational_lag otherwise, and for each
    surviving lag returns the name col_lag of a column that equals the
    target column shifted by that lag. *)
Theorem lagged_predictors_pd_selected pacf (h : store) df tbl col_name col
    freq d operational_lag thres da_auction :
  h !! df = Some tbl ->
  df_get tbl col_name = Some col ->
  exists h' tbl' Lags,
    lagged_predictors_pd pacf h df col_name freq d operational_lag thres da_auction
      = Some (h', (df, map (lag_name col_name) Lags)) /\
    h' !! df = Some tbl' /\
    (forall lag, lag ∈ Lags <->
       exists k v, pacf col d !! k = Some (Some v) /\ (thres < Qabs v)%Q /\
                   lag = Z.of_nat k - 1 /\
                   (if da_auction
                    then py_int (freq * 24) - 1 + operational_lag
                    else operational_lag) < lag) /\
    (forall lag, lag ∈ Lags ->
       df_get tbl' (lag_name col_name lag) = Some (shift col lag)).
Proof.
  intros Hdf Hcol.
  destruct (lagged_predictors_pd_run pacf h df tbl col_name col freq d
              operational_lag thres da_auction Hdf Hcol)
    as (tbl' & Hrun & _ & Hnew & _).
  eexists _, tbl', _. split; [exact Hrun |].
  split; [apply lookup_insert_eq |]. split; [| exact Hnew].
  intros lag. apply elem_of_selected_lags.
Qed.

Lemma lagged_predictors_pd_selected_witness :
  let pacf := fun (_ : list cell) (_ : nat) =>
                [Some 1%Q; Some (1 # 2)%Q; Some (1 # 2)%Q] in
  let col := [Some 1%Q; Some 2%Q; Some 3%Q] in
  let h : store := {[ 0%nat := [("x"%string, col)] ]} in
  exists h' tbl' Lags,
    lagged_predictors_pd pacf h 0%nat "x" 1 2 0 (1 # 10) false
      = Some (h', (0%nat, map (lag_name "x") Lags)) /\
    h' !! 0%nat = Some tbl' /\
    (forall lag, lag ∈ Lags <->
       exists k v, pacf col 2%nat !! k = Some (Some v) /\
                   (1 # 10 < Qabs v)%Q /\ lag = Z.of_nat k - 1 /\ 0 < lag) /\
    (forall lag, lag ∈ Lags ->
       df_get tbl' (lag_name "x" lag) = Some (shift col lag)).
Proof.
  intros pacf col h.
  apply (lagged_predictors_pd_selected pacf h 0%nat [("x"%string, col)]
           "x" col 1 2 0 (1 # 10) false).
  - reflexivity.
  - reflexivity.
Defined.

(** ** Frame effects: who modifies the caller's table *)

Lemma df_set_same (tbl : dataframe) name col :
  df_get tbl name = Some col -> df_set tbl name col = tbl.
Proof.
  induction tbl as [| [n c] tbl IH]; simpl; [discriminate |].
  destruct (String.eqb n name) eqn:E.
  - by intros [= ->].
  - intros H. by rewrite IH.
Qed.

(** The loop over [Lags] on a table that already holds the lag columns. *)
Lemma add_lag_columns_again col_name col tbl Lags : forall names,
  df_get tbl col_name = Some col ->
  (forall lag, lag ∈ Lags ->
     df_get tbl (lag_name col_name lag) = Some (shift col lag)) ->
  fold_left (add_lag_column col_name) Lags (Some (tbl, names)) =
  Some (tbl, names ++ map (lag_name col_name) Lags).
Proof.
  induction Lags as [| lag Lags IH]; intros names Hcol Hlags; simpl.
  - by rewrite app_nil_r.
  - rewrite Hcol, df_set_same by (apply Hlags; by left).
    rewrite IH; [by rewrite <- app_assoc | done |].
    intros lag' Hin. apply Hlags. by right.
Qed.

(** C9, as stated, fails: lagged_predictors_pd assigns the lag columns
    into the caller's own table. With PACF = [1, 0.5, 0.5] and threshold
    0.1 the lag 1 is selected and the table of the caller has a second
    column after the call. *)
Lemma lagged_predictors_pd_mutates_counterexample :
  let pacf := fun (_ : list cell) (_ : nat) =>
                [Some 1%Q; Some (1 # 2)%Q; Some (1 # 2)%Q] in
  let h : store := {[ 0%nat := [("x"%string, [Some 1%Q; Some 2%Q; Some 3%Q])] ]} in
  exists h' names,
    lagged_predictors_pd pacf h 0%nat "x" 1 2 0 (1 # 10) false
      = Some (h', (0%nat, names)) /\
    h' !! 0%nat <> h !! 0%nat /\
    h' !! 0%nat = Some [("x"%string, [Some 1%Q; Some 2%Q; Some 3%Q]);
                        ("x_1"%string, [None; Some 1%Q; Some 2%Q])].
Proof.
  intros pacf h. eexists _, _. split; [reflexivity |].
  rewrite lookup_insert_eq. unfold h. rewrite lookup_singleton_eq.
  split; [discriminate | reflexivity].
Qed.

(** C9, amended. lagged_predictors_pd does not leave the caller's table
    unmodified. It returns the caller's own table object, updated in
    place: for every selected lag the column named for it holds the target
    column shifted by that lag, the columns with other names keep their
    contents, and every other object is unchanged. The table is left
    unchanged exactly when the column of each selected lag already held
    that shifted target, in particular when no lag is selected. *)
Theorem frame_effects pacf (h : store) df tbl col_name col freq d
    operational_lag thres da_auction :
  h !! df = Some tbl ->
  df_get tbl col_name = Some col ->
  let Lags := selected_lags (pacf col d) thres freq operational_lag da_auction in
  exists h' tbl',
    lagged_predictors_pd pacf h df col_name freq d operational_lag thres da_auction
      = Some (h', (df, map (lag_name col_name) Lags)) /\
    (forall l, l <> df -> h' !! l = h !! l) /\
    h' !! df = Some tbl' /\
    (forall lag, lag ∈ Lags ->
       df_get tbl' (lag_name col_name lag) = Some (shift col lag)) /\
    (forall name, name ∉ map (lag_name col_name) Lags ->
       df_get tbl' name = df_get tbl name) /\
    (h' = h <->
     forall lag, lag ∈ Lags ->
       df_get tbl (lag_name col_name lag) = Some (shift col lag)).
Proof.
  intros Hdf Hcol Lags.
  destruct (lagged_predictors_pd_run pacf h df tbl col_name col freq d
              operational_lag thres da_auction Hdf Hcol)
    as (tbl' & Hrun & _ & Hnew & Hold & _).
  fold Lags in Hrun, Hnew, Hold.
  eexists _, tbl'. split; [exact Hrun |].
  split; [| split; [apply lookup_insert_eq | split; [exact Hnew | split]]].
  - intros l Hl. by apply lookup_insert_ne.
  - intros name Hname. apply Hold. intros k Hk ->. apply Hname.
    apply list_elem_of_fmap. eauto.
  - split.
    + intros Heq lag Hlag.
      assert (tbl' = tbl) as <-.
      { apply (f_equal (fun m : store => m !! df)) in Heq.
        rewrite lookup_insert_eq, Hdf in Heq. congruence. }
      by apply Hnew.
    + intros Hall.
      assert (lagged_predictors_pd pacf h df col_name freq d operational_lag
                thres da_auction
              = Some (<[df := tbl]> h, (df, map (lag_name col_name) Lags)))
        as Hsame.
      { unfold lagged_predictors_pd. rewrite Hdf, Hcol. fold Lags.
        by rewrite (add_lag_columns_again col_name col tbl Lags [] Hcol Hall). }
      rewrite Hrun in Hsame. injection Hsame as ->. by apply insert_id.
Qed.

Lemma frame_effects_witness :
  let pacf := fun (_ : list cell) (_ : nat) =>
                [Some 1%Q; Some (1 # 2)%Q; Some (1 # 2)%Q] in
  let col := [Some 1%Q; Some 2%Q; Some 3%Q] in
  let tbl := [("x"%string, col)] in
  let h : store := {[ 0%nat := tbl ]} in
  let Lags := selected_lags (pacf col 2%nat) (1 # 10) 1 0 false in
  exists h' tbl',
    lagged_predictors_pd pacf h 0%nat "x" 1 2 0 (1 # 10) false
      = Some (h', (0%nat, map (lag_name "x") Lags)) /\
    (forall l, l <> 0%nat -> h' !! l = h !! l) /\
    h' !! 0%nat = Some tbl' /\
    (forall lag, lag ∈ Lags ->
       df_get tbl' (lag_name "x" lag) = Some (shift col lag)) /\
    (forall name, name ∉ map (lag_name "x") Lags ->
       df_get tbl' name = df_get tbl name) /\
    (h' = h <->
     forall lag, lag ∈ Lags ->
       df_get tbl (lag_name "x" lag) = Some (shift col lag)).
Proof.
  intros pacf col tbl h.
  apply (frame_effects pacf h 0%nat tbl "x" col 1 2 0 (1 # 10) false).
  - reflexivity.
  - reflexivity.
Defined.

(** ** VaR and CVaR *)

Local Open Scope Q_scope.

Lemma length_insert_sorted x l : length (insert_sorted x l) = S (length l).
Proof.
  induction l as [| y l IH]; simpl; [done |].
  destruct (Qle_bool x y); simpl; by rewrite ?IH.
Qed.

Lemma length_np_sort l : length (np_sort l) = length l.
Proof.
  induction l as [| x l IH]; simpl; [done |].
  by rewrite length_insert_sorted, IH.
Qed.

Lemma elem_of_insert_sorted x l y : y ∈ insert_sorted x l <-> y = x \/ y ∈ l.
Proof.
  induction l as [| z l IH]; simpl.
  - rewrite list_elem_of_singleton, elem_of_nil. tauto.
  - destruct (Qle_bool x z).
    + by rewrite elem_of_cons.
    + rewrite !elem_of_cons, IH. tauto.
Qed.

Lemma elem_of_np_sort l y : y ∈ np_sort l <-> y ∈ l.
Proof.
  induction l as [| x l IH]; simpl; [done |].
  by rewrite elem_of_insert_sorted, elem_of_cons, IH.
Qed.

Lemma insert_sorted_sorted x l :
  StronglySorted Qle l -> StronglySorted Qle (insert_sorted x l).
Proof.
  induction 1 as [| y l Hl IH Hy]; simpl.
  - repeat constructor.
  - destruct (Qle_bool x y) eqn:E.
    + apply Qle_bool_iff in E. constructor; [by constructor |].
      constructor; [done |].
      eapply Forall_impl; [exact Hy |]. intros z Hz. by apply Qle_trans with y.
    + assert (y <= x) as Hyx.
      { apply Qlt_le_weak, Qnot_le_lt. intros Hle.
        apply Qle_bool_iff in Hle. congruence. }
      constructor; [done |]. apply Forall_forall. intros z Hz.
      apply elem_of_insert_sorted in Hz as [-> | Hz]; [done |].
      by eapply Forall_forall in Hy.
Qed.

Lemma np_sort_sorted l : StronglySorted Qle (np_sort l).
Proof.
  induction l as [| x l IH]; simpl; [constructor | by apply insert_sorted_sorted].
Qed.

(** Every value of a sorted array is at most the value at the last
    position. *)
Lemma sorted_le_last a x :
  StronglySorted Qle a -> x ∈ a -> x <= nth (length a - 1) a 0.
Proof.
  intros Hs. revert x.
  induction Hs as [| y l Hl IH Hy]; intros x Hx; [by apply elem_of_nil in Hx |].
  destruct l as [| z l].
  - apply list_elem_of_singleton in Hx as ->. simpl. apply Qle_refl.
  - assert (nth (length (y :: z :: l) - 1) (y :: z :: l) 0
            = nth (length (z :: l) - 1) (z :: l) 0) as ->.
    { simpl. by rewrite Nat.sub_0_r. }
    apply elem_of_cons in Hx as [-> | Hx]; [| by apply IH].
    apply Qle_trans with z; [| apply IH; by left].
    eapply Forall_forall in Hy; [exact Hy | by left].
Qed.

Lemma floor_half (m : nat) :
  Z.to_nat (Qfloor (inject_Z (Z.of_nat m) * (1 # 2))) = (m / 2)%nat.
Proof.
  unfold Qfloor, Qmult, inject_Z. cbn [Qnum Qden].
  rewrite Z.mul_1_r. change (Z.pos (1 * 2)) with 2%Z.
  rewrite <- (Nat2Z.id (m / 2)). f_equal.
  by rewrite Nat2Z.inj_div.
Qed.

Lemma floor_whole (m : nat) :
  Z.to_nat (Qfloor (inject_Z (Z.of_nat m) * 1)) = m.
Proof.
  unfold Qfloor, Qmult, inject_Z. cbn [Qnum Qden].
  rewrite Z.mul_1_r. change (Z.pos (1 * 1)) with 1%Z.
  rewrite Z.div_1_r. apply Nat2Z.id.
Qed.

Lemma np_quantile_unfold data level :
  data <> [] ->
  Qle_bool 0 level && Qle_bool level 1 = true ->
  np_quantile data level =
  let a := np_sort data in
  let n := length data in
  let h := inject_Z (Z.of_nat (n - 1)) * level in
  let lo := Z.to_nat (Qfloor h) in
  let hi := Nat.min (lo + 1) (n - 1) in
  Some (Qred (nth lo a 0 + (h - inject_Z (Z.of_nat lo)) * (nth hi a 0 - nth lo a 0))).
Proof.
  intros Hne Hlevel. unfold np_quantile. destruct data; [done |].
  rewrite Hlevel. by rewrite length_np_sort.
Qed.

(** The quantile at level 1/2 is the median. *)
Lemma np_quantile_half data :
  data <> [] -> exists v, np_quantile data (1 # 2) = Some v /\ v == median data.
Proof.
  intros Hne. rewrite np_quantile_unfold; [| done | reflexivity]. cbv zeta.
  eexists. split; [reflexivity |]. rewrite Qred_correct.
  unfold median. rewrite length_np_sort, floor_half.
  set (a := np_sort data). set (n := length data).
  assert (0 < n)%nat as Hn.
  { unfold n. destruct data; [done | simpl; lia]. }
  destruct (Nat.Even_or_Odd n) as [[k Hk] | [k Hk]].
  - assert (Nat.even n = true) as -> by (apply Nat.even_spec; by exists k).
    assert ((n - 1) / 2 = k - 1)%nat as ->.
    { symmetry. apply Nat.div_unique with 1%nat; lia. }
    assert (n / 2 = k)%nat as ->.
    { symmetry. apply Nat.div_unique with 0%nat; lia. }
    assert (Nat.min (k - 1 + 1) (n - 1) = k) as -> by lia.
    assert (inject_Z (Z.of_nat (n - 1)) * (1 # 2) - inject_Z (Z.of_nat (k - 1))
            == 1 # 2) as ->.
    { unfold Qeq, Qminus, Qplus, Qmult, Qopp, inject_Z. cbn [Qnum Qden]. lia. }
    field.
  - assert (Nat.even n = false) as ->.
    { apply not_true_iff_false. rewrite Nat.even_spec. intros Heven.
      apply (Nat.Even_Odd_False n); [done | by exists k]. }
    assert ((n - 1) / 2 = k)%nat as ->.
    { symmetry. apply Nat.div_unique with 0%nat; lia. }
    assert (n / 2 = k)%nat as ->.
    { symmetry. apply Nat.div_unique with 1%nat; lia. }
    assert (inject_Z (Z.of_nat (n - 1)) * (1 # 2) - inject_Z (Z.of_nat k) == 0)
      as ->.
    { unfold Qeq, Qminus, Qplus, Qmult, Qopp, inject_Z. cbn [Qnum Qden]. lia. }
    ring.
Qed.

(** The quantile at level 1 is the largest value of the sample. *)
Lemma np_quantile_one data :
  data <> [] ->
  exists v, np_quantile data 1 = Some v /\ forall x, x ∈ data -> x <= v.
Proof.
  intros Hne. rewrite np_quantile_unfold; [| done | reflexivity]. cbv zeta.
  eexists. split; [reflexivity |]. intros x Hx. rewrite Qred_correct.
  rewrite floor_whole.
  assert (Nat.min (length data - 1 + 1) (length data - 1) = length data - 1)%nat
    as -> by lia.
  assert (inject_Z (Z.of_nat (length data - 1)) * 1
            - inject_Z (Z.of_nat (length data - 1)) == 0) as -> by ring.
  rewrite Qmult_0_l, Qplus_0_r, <- (length_np_sort data).
  apply sorted_le_last; [apply np_sort_sorted | by apply elem_of_np_sort].
Qed.

Lemma mean_list_mean data :
  data <> [] -> exists m, mean_list data = Some m /\ m == mean data.
Proof.
  intros Hne. destruct data as [| x data]; [done |].
  unfold mean_list, mean. eexists. split; [reflexivity |]. apply Qred_correct.
Qed.

(** C7, as stated, fails: called as VaR(data, quant=0.5) and
    CVaR(data, quant=1.0) the functions round to the default 3 digits. On
    the sample [0.0001, 0.0002, 0.0004] both return 0, which is neither
    the median 0.0002 nor the mean 0.000233... *)
Lemma VaR_median_counterexample :
  let data := [1 # 10000; 2 # 10000; 4 # 10000] in
  VaR data (Passed (1 # 2)) Omitted = Some 0 /\
  ~ 0 == median data /\
  CVaR data (Passed 1) Omitted = Some (Some 0) /\
  ~ 0 == mean data.
Proof.
  intros data. split; [reflexivity |]. split; [by vm_compute |].
  split; [reflexivity | by vm_compute].
Qed.

(** C7, amended. For every non-empty sample, VaR(data, quant=0.5,
    digits=None) equals the median and CVaR(data, quant=1.0, digits=None)
    equals the mean of the sample; with the default digits the two calls
    return these values rounded to 3 decimals. *)
Theorem VaR_median_CVaR_mean data :
  data <> [] ->
  (exists v, VaR data (Passed (1 # 2)) (Passed None) = Some v /\
             v == median data /\
             VaR data (Passed (1 # 2)) Omitted = Some (py_round v 3)) /\
  (exists m, CVaR data (Passed 1) (Passed None) = Some (Some m) /\
             m == mean data /\
             CVaR data (Passed 1) Omitted = Some (Some (py_round m 3))).
Proof.
  intros Hne. split.
  - destruct (np_quantile_half data Hne) as (v & Hv & Hmed).
    exists v. unfold VaR. cbn [arg_or]. by rewrite Hv.
  - destruct (np_quantile_one data Hne) as (v & Hv & Hmax).
    destruct (mean_list_mean data Hne) as (m & Hm & Hmean).
    exists m. unfold CVaR. cbn [arg_or]. rewrite Hv.
    rewrite filter_all; [by rewrite Hm |].
    intros x Hx. apply Qle_bool_iff. by apply Hmax.
Qed.

Lemma VaR_median_CVaR_mean_witness :
  let data := [3; 1; 2; 5] in
  (exists v, VaR data (Passed (1 # 2)) (Passed None) = Some v /\
             v == median data /\
             VaR data (Passed (1 # 2)) Omitted = Some (py_round v 3)) /\
  (exists m, CVaR data (Passed 1) (Passed None) = Some (Some m) /\
             m == mean data /\
             CVaR data (Passed 1) Omitted = Some (Some (py_round m 3))).
Proof.
  intros data. apply (VaR_median_CVaR_mean [3; 1; 2; 5]). discriminate.
Defined.

(** C10. Called without a digits argument, VaR and CVaR behave as with
    digits=3: their result is the empirical quantile (resp. the tail mean)
    rounded to 3 decimals. The unrounded value is what digits=None
    returns, and the default differs from it, as on the sample [1/3]. *)
Theorem VaR_CVaR_default_digits data quant :
  VaR data quant Omitted = VaR data quant (Passed (Some 3%Z)) /\
  CVaR data quant Omitted = CVaR data quant (Passed (Some 3%Z)) /\
  VaR data quant Omitted =
    (fun v => py_round v 3) <$> VaR data quant (Passed None) /\
  CVaR data quant Omitted =
    cell_map (fun m => py_round m 3) <$> CVaR data quant (Passed None) /\
  VaR data quant (Passed None) = np_quantile data (arg_or (5 # 100) quant) /\
  VaR [1 # 3] Omitted Omitted = Some (333 # 1000) /\
  VaR [1 # 3] Omitted (Passed None) = Some (1 # 3) /\
  CVaR [1 # 3] Omitted Omitted = Some (Some (333 # 1000)) /\
  CVaR [1 # 3] Omitted (Passed None) = Some (Some (1 # 3)).
Proof.
  repeat split; try reflexivity.
  - unfold VaR. cbn [arg_or]. by destruct (np_quantile data _).
  - unfold CVaR. cbn [arg_or]. by destruct (np_quantile data _).
  - unfold VaR. cbn [arg_or]. by destruct (np_quantile data _).
Qed.

(** ** energy_score: the blocks that are scored *)

Local Open Scope nat_scope.

Lemma length_py_range start stop step :
  length (py_range start stop step) = (stop - start + step - 1) / step.
Proof. unfold py_range. by rewrite length_map, length_seq. Qed.

(** The loop scores [(n - 1) / step] blocks of a target with [n] rows:
    one block less than the [n / step] complete blocks whenever [n] is a
    positive multiple of [step]. *)
Lemma block_ends_count target step :
  0 < step ->
  length (block_ends target step) = (nrows target - 1) / step.
Proof.
  intros Hstep. unfold block_ends. rewrite length_py_range.
  destruct (le_lt_dec step (nrows target)) as [Hle | Hlt].
  - f_equal. lia.
  - replace (nrows target - step + step - 1) with (step - 1) by lia.
    rewrite !Nat.div_small; lia.
Qed.

Lemma block_ends_multiple target step m :
  0 < step -> 0 < m -> nrows target = m * step ->
  length (block_ends target step) = m - 1 /\ nrows target / step = m.
Proof.
  intros Hstep Hm Hrows. rewrite block_ends_count, Hrows by done. split.
  - symmetry. apply Nat.div_unique with (step - 1); [lia | nia].
  - by apply Nat.div_mul, Nat.neq_0_lt_0.
Qed.

(** C8. A target of two rows holds two blocks of step = 1, rows [0:1] and
    [1:2]. The loop range(step, len(target), step) closes a block at row 1
    only, so the second block is never scored: whatever the realized value
    of the second row (10 or 0), the returned score is that of the first
    block alone. *)
Theorem energy_score_skips_last_block (sqrt : Q -> Q) :
  let pred_scenarios := mkArr 2 1 [[0]; [0]]%Q in
  let target := mkArr 2 1 [[0]; [10]]%Q in
  nrows target / 1 = 2 /\
  block_ends target 1 = [1] /\
  energy_score sqrt target pred_scenarios 1 =
    (let* s := block_score sqrt target pred_scenarios 1 1 in
     Returned (mean_cells [s])) /\
  energy_score sqrt target pred_scenarios 1 =
    energy_score sqrt (mkArr 2 1 [[0]; [0]]%Q) pred_scenarios 1.
Proof. intros pred_scenarios target. repeat split; reflexivity. Qed.

(** * Further properties of the supervised-set builders *)

Local Open Scope nat_scope.

(** ** Python slices *)

Lemma slice_to_from {A} (k : Z) (l : list A) : slice_to k l ++ slice_from k l = l.
Proof. unfold slice_to, slice_from. apply take_drop. Qed.

(** ** Entries of a shifted series *)

Lemma lookup_shift_lag (l : list cell) (i r : nat) :
  shift l (Z.of_nat i) !! r =
  if decide (r < length l) then
    if decide (r < i) then Some NaN else l !! (r - i)
  else None.
Proof.
  unfold shift. destruct (Z.leb_spec 0 (Z.of_nat i)); [| lia].
  rewrite Nat2Z.id. destruct (decide (r < length l)) as [Hr | Hr].
  - rewrite lookup_take_lt by done. destruct (decide (r < i)) as [Hi | Hi].
    + rewrite lookup_app_l by (by rewrite length_replicate).
      by apply lookup_replicate_2.
    + rewrite lookup_app_r by (rewrite length_replicate; lia).
      by rewrite length_replicate.
  - apply lookup_ge_None. rewrite length_take. lia.
Qed.

Lemma lookup_shift_lead (l : list cell) (i r : nat) :
  shift l (- Z.of_nat i) !! r =
  if decide (r < length l) then
    if decide (r + i < length l) then l !! (r + i) else Some NaN
  else None.
Proof.
  destruct i as [| i].
  { change (- Z.of_nat 0)%Z with (Z.of_nat 0). rewrite lookup_shift_lag.
    rewrite Nat.add_0_r, Nat.sub_0_r.
    destruct (decide (r < length l)); [| done].
    destruct (decide (r < 0)); [lia | done]. }
  unfold shift. destruct (Z.leb_spec 0 (- Z.of_nat (S i))); [lia |].
  replace (Z.to_nat (- - Z.of_nat (S i))) with (S i) by lia.
  destruct (decide (r < length l)) as [Hr | Hr].
  - destruct (decide (r + S i < length l)) as [Hi | Hi].
    + rewrite lookup_app_l by (rewrite length_drop; lia).
      rewrite lookup_drop. f_equal. lia.
    + rewrite lookup_app_r by (rewrite length_drop; lia).
      apply lookup_replicate_2. rewrite length_drop. lia.
  - apply lookup_ge_None. rewrite length_app, length_drop, length_replicate. lia.
Qed.

Lemma length_shift (l : list cell) (i : Z) : length (shift l i) = length l.
Proof.
  unfold shift. destruct (Z.leb_spec 0 i).
  - rewrite length_take, length_app, length_replicate. lia.
  - rewrite length_app, length_drop, length_replicate. lia.
Qed.

(** ** Filtering the rows of a stacked matrix *)

Lemma filter_map_seq_from {B} (f : B -> bool) (g : nat -> B) n k :
  (forall r, r < n -> f (g r) = bool_decide (k <= r)) ->
  List.filter f (map g (seq 0 n)) = map g (seq k (n - k)).
Proof.
  intros H. destruct (le_lt_dec k n) as [Hle | Hlt].
  - replace n with (k + (n - k)) at 1 by lia.
    rewrite seq_app, map_app, List.filter_app, filter_none, filter_all; [done | |].
    + intros x Hx. apply list_elem_of_fmap in Hx as (r & -> & Hr).
      apply elem_of_seq in Hr. rewrite H by lia. apply bool_decide_eq_true. lia.
    + intros x Hx. apply list_elem_of_fmap in Hx as (r & -> & Hr).
      apply elem_of_seq in Hr. rewrite H by lia. apply bool_decide_eq_false. lia.
  - replace (n - k) with 0 by lia. simpl. apply filter_none.
    intros x Hx. apply list_elem_of_fmap in Hx as (r & -> & Hr).
    apply elem_of_seq in Hr. rewrite H by lia. apply bool_decide_eq_false. lia.
Qed.

Lemma filter_map_seq_upto {B} (f : B -> bool) (g : nat -> B) n k :
  k <= n ->
  (forall r, r < n -> f (g r) = bool_decide (r < k)) ->
  List.filter f (map g (seq 0 n)) = map g (seq 0 k).
Proof.
  intros Hk H. replace n with (k + (n - k)) at 1 by lia.
  rewrite seq_app, map_app, List.filter_app, filter_all, filter_none.
  - by rewrite app_nil_r.
  - intros x Hx. apply list_elem_of_fmap in Hx as (r & -> & Hr).
    apply elem_of_seq in Hr. rewrite H by lia. apply bool_decide_eq_false. lia.
  - intros x Hx. apply list_elem_of_fmap in Hx as (r & -> & Hr).
    apply elem_of_seq in Hr. rewrite H by lia. apply bool_decide_eq_true. lia.
Qed.

Lemma nth_defined (col : list cell) i :
  Forall is_Some col -> i < length col -> is_Some (nth i col NaN).
Proof.
  intros Hcol Hi. destruct (lookup_lt_is_Some_2 col i Hi) as [c Hc].
  rewrite (nth_lookup_Some _ _ _ _ Hc). by eapply Forall_lookup_1 in Hcol.
Qed.

Lemma nth_shift_lag (col : list cell) (i r : nat) :
  r < length col ->
  nth r (shift col (Z.of_nat i)) NaN = if decide (r < i) then NaN else nth (r - i) col NaN.
Proof.
  intros Hr. rewrite nth_lookup, lookup_shift_lag.
  destruct (decide (r < length col)); [| lia].
  destruct (decide (r < i)); [done |]. by rewrite nth_lookup.
Qed.

Lemma nth_shift_lead (col : list cell) (i r : nat) :
  r < length col ->
  nth r (shift col (- Z.of_nat i)) NaN =
  if decide (r + i < length col) then nth (r + i) col NaN else NaN.
Proof.
  intros Hr. rewrite nth_lookup, lookup_shift_lead.
  destruct (decide (r < length col)); [| lia].
  destruct (decide (r + i < length col)); [| done]. by rewrite nth_lookup.
Qed.

(** ** The lag and lead matrices of a series without NaN *)

Lemma lag_matrix_rows col look_back :
  Forall is_Some col ->
  lag_matrix col look_back =
  map (lag_row col look_back) (seq look_back (length col - look_back)).
Proof.
  intros Hcol. unfold lag_matrix, drop_nan_rows, stack_T. cbv zeta.
  set (g := fun r => map (fun c => nth r c NaN)
                         (map (fun i => shift col (Z.of_nat i)) (seq 0 (look_back + 1)))).
  assert (forall r, r < length col ->
            g r = map (fun i => if decide (r < i) then NaN else nth (r - i) col NaN)
                      (seq 0 (look_back + 1))) as Hg.
  { intros r Hr. unfold g. rewrite map_map. apply map_ext.
    intros i. by apply nth_shift_lag. }
  etrans; [apply (filter_map_seq_from row_defined g (length col) look_back) |].
  2: { apply map_ext_in. intros r Hr. apply in_seq in Hr. rewrite Hg by lia.
    apply map_ext_in. intros i Hi. apply in_seq in Hi.
    destruct (decide (r < i)); [lia | done]. }
  intros r Hr. rewrite Hg by done.
  destruct (decide (look_back <= r)) as [Hle | Hlt].
  - rewrite bool_decide_eq_true_2 by done. apply row_defined_spec.
    apply Forall_forall. intros c Hc.
    apply list_elem_of_fmap in Hc as (i & -> & Hi). apply elem_of_seq in Hi.
    destruct (decide (r < i)); [lia |].
    apply nth_defined; [done | unfold cell in *; lia].
  - rewrite bool_decide_eq_false_2 by done. apply row_defined_false.
    apply list_elem_of_fmap. exists look_back. split.
    + destruct (decide (r < look_back)); [done | lia].
    + apply elem_of_seq. lia.
Qed.

Lemma nth_map_seq {B} (f : nat -> B) (a m k : nat) (d : B) :
  k < m -> nth k (map f (seq a m)) d = f (a + k).
Proof.
  intros Hk. apply nth_lookup_Some.
  change (map f (seq a m)) with (f <$> seq a m).
  by rewrite list_lookup_fmap, lookup_seq_lt.
Qed.

Lemma map_seq_from {B} (f : nat -> B) (a k : nat) :
  map f (seq a k) = map (fun r => f (a + r)) (seq 0 k).
Proof.
  revert f a. induction k as [| k IH]; intros f a; simpl; [done |].
  rewrite Nat.add_0_r. f_equal.
  rewrite (IH f (S a)), (IH (fun r => f (a + r)) 1). apply map_ext.
  intros r. f_equal. lia.
Qed.

Lemma lead_matrix_rows col look_back n_seq :
  Forall is_Some col ->
  lead_matrix (lag_matrix col look_back) n_seq =
  map (lead_row col n_seq) (seq look_back (length col - look_back - n_seq)).
Proof.
  intros Hcol. rewrite lag_matrix_rows by done.
  unfold lead_matrix, drop_nan_rows, stack_T. cbv zeta.
  set (m := length col - look_back).
  rewrite !map_map.
  assert (map (fun t => nth 0 (lag_row col look_back t) NaN) (seq look_back m)
          = map (fun t => nth t col NaN) (seq look_back m)) as ->.
  { apply map_ext. intros t. unfold lag_row.
    replace (look_back + 1) with (S look_back) by lia. simpl.
    by rewrite Nat.sub_0_r. }
  set (x0 := map (fun t => nth t col NaN) (seq look_back m)).
  assert (@length cell x0 = m) as Hx0
    by (unfold x0; by rewrite length_map, length_seq).
  rewrite Hx0.
  assert (row_defined x0 = true) as Hdef.
  { apply row_defined_spec, Forall_forall. intros c Hc.
    apply list_elem_of_fmap in Hc as (t & -> & Ht). apply elem_of_seq in Ht.
    apply nth_defined; [done | unfold cell, m in *; lia]. }
  set (g := fun r => drop 1 (map (fun c => nth r c NaN)
                (map (fun i => ndimage_shift x0 (- Z.of_nat i))
                     (seq 0 (n_seq + 1))))).
  change (List.filter row_defined (map g (seq 0 m)) =
          map (lead_row col n_seq) (seq look_back (m - n_seq))).
  assert (forall r, r < m ->
            g r = map (fun j => if decide (r + j < m)
                                then nth (look_back + (r + j)) col NaN else NaN)
                      (seq 1 n_seq)) as Hg.
  { intros r Hr. unfold g. rewrite map_map.
    replace (n_seq + 1) with (S n_seq) by lia. simpl. apply map_ext.
    intros j. rewrite ndimage_shift_defined by done.
    rewrite nth_shift_lead by (by rewrite Hx0). rewrite Hx0.
    destruct (decide (r + j < m)); [| done]. unfold x0. by apply nth_map_seq. }
  etrans; [apply (filter_map_seq_upto row_defined g m (m - n_seq)); [lia |] |].
  - intros r Hr. rewrite Hg by done.
    destruct (decide (r < m - n_seq)) as [Hlt | Hge].
    + rewrite bool_decide_eq_true_2 by done. apply row_defined_spec.
      apply Forall_forall. intros c Hc.
      apply list_elem_of_fmap in Hc as (j & -> & Hj). apply elem_of_seq in Hj.
      destruct (decide (r + j < m)); [| lia].
      apply nth_defined; [done | unfold cell, m in *; lia].
    + rewrite bool_decide_eq_false_2 by done. apply row_defined_false.
      apply list_elem_of_fmap. exists n_seq. split.
      * destruct (decide (r + n_seq < m)); [lia | done].
      * apply elem_of_seq. lia.
  - rewrite (map_seq_from _ look_back). apply map_ext_in. intros r Hr. apply in_seq in Hr.
    rewrite Hg by lia. unfold lead_row. apply map_ext_in. intros j Hj.
    apply in_seq in Hj. destruct (decide (r + j < m)); [| lia].
    f_equal. lia.
Qed.

Lemma aligned_X_rows col look_back n_seq :
  Forall is_Some col ->
  aligned_X col look_back n_seq =
  map (lag_row col look_back) (seq look_back (length col - look_back - n_seq)).
Proof.
  intros Hcol. unfold aligned_X. rewrite lead_matrix_rows by done.
  rewrite lag_matrix_rows by done. rewrite length_map, length_seq.
  change (take ?n (map ?f ?l)) with (take n (f <$> l)).
  rewrite <- fmap_take, take_seq. do 2 f_equal. lia.
Qed.

(** ** Row counts for an arbitrary series *)

Lemma filter_map_seq_length_from {B} (f : B -> bool) (g : nat -> B) n k :
  (forall r, r < n -> r < k -> f (g r) = false) ->
  length (List.filter f (map g (seq 0 n))) <= n - k.
Proof.
  intros H. destruct (le_lt_dec k n) as [Hle | Hlt].
  - replace n with (k + (n - k)) at 1 by lia.
    rewrite seq_app, map_app, List.filter_app, filter_none.
    + simpl. etrans; [apply filter_length_le |].
      by rewrite length_map, length_seq.
    + intros x Hx. apply list_elem_of_fmap in Hx as (r & -> & Hr).
      apply elem_of_seq in Hr. apply H; lia.
  - rewrite filter_none; [simpl; lia |].
    intros x Hx. apply list_elem_of_fmap in Hx as (r & -> & Hr).
    apply elem_of_seq in Hr. apply H; lia.
Qed.

Lemma filter_map_seq_length_upto {B} (f : B -> bool) (g : nat -> B) n k :
  k <= n ->
  (forall r, r < n -> k <= r -> f (g r) = false) ->
  length (List.filter f (map g (seq 0 n))) <= k.
Proof.
  intros Hk H. replace n with (k + (n - k)) at 1 by lia.
  rewrite seq_app, map_app, List.filter_app, (filter_none f (map g (seq (0 + k) _))).
  - rewrite app_nil_r. etrans; [apply filter_length_le |].
    by rewrite length_map, length_seq.
  - intros x Hx. apply list_elem_of_fmap in Hx as (r & -> & Hr).
    apply elem_of_seq in Hr. apply H; lia.
Qed.

Lemma length_lag_matrix col look_back :
  length (lag_matrix col look_back) <= length col - look_back.
Proof.
  unfold lag_matrix, drop_nan_rows, stack_T. cbv zeta.
  apply filter_map_seq_length_from. intros r Hr Hlt.
  apply row_defined_false. rewrite map_map. apply list_elem_of_fmap.
  exists look_back. split; [| apply elem_of_seq; lia].
  rewrite nth_shift_lag by done. by destruct (decide (r < look_back)).
Qed.

Lemma length_lead_matrix_bound X n_seq :
  length (lead_matrix X n_seq) <= length X - n_seq.
Proof.
  unfold lead_matrix, drop_nan_rows, stack_T. cbv zeta. rewrite map_map.
  set (x0 := map (fun r => nth 0 r NaN) X).
  assert (@length cell x0 = length X) as Hx0 by (unfold x0; by rewrite length_map).
  rewrite Hx0.
  apply (filter_map_seq_length_upto row_defined _ (length X) (length X - n_seq));
    [lia |].
  intros r Hr Hge. apply row_defined_false. rewrite map_map.
  replace (n_seq + 1) with (S n_seq) by lia. simpl.
  apply list_elem_of_fmap. exists n_seq. split; [| apply elem_of_seq; lia].
  unfold ndimage_shift. destruct (row_defined x0);
    [| by rewrite nth_replicate_nan].
  rewrite nth_shift_lead by (rewrite Hx0; lia). rewrite Hx0.
  destruct (decide (r + n_seq < length X)); [lia | done].
Qed.

Lemma length_aligned_bound col look_back n_seq :
  length (aligned_X col look_back n_seq) <= length col - look_back - n_seq.
Proof.
  rewrite length_aligned_X.
  pose proof (length_lead_matrix_bound (lag_matrix col look_back) n_seq).
  pose proof (length_lag_matrix col look_back). lia.
Qed.

(** ** create_supervised on whole inputs *)

(** X1. On a series without NaN of length n, create_supervised splits the
    n - look_back - n_seq aligned rows: the X row of reference time t is
    [x_t, x_t-1, .., x_t-look_back] and its Y row is
    [x_t+1, .., x_t+n_seq], for t from look_back on; the training sets are
    the rows before the split point, the test sets the rows from the test
    start on. *)
Theorem create_supervised_rows d look_back n_seq train_split (overlap : bool) col :
  column0 d = Some col ->
  Forall is_Some col ->
  let times := seq look_back (length col - look_back - n_seq) in
  let start := (if overlap then train_split - Z.of_nat look_back - 1
                else train_split)%Z in
  create_supervised d look_back n_seq train_split overlap =
  Some {| trainX := slice_to train_split (map (lag_row col look_back) times);
          trainY := slice_to train_split (map (lead_row col n_seq) times);
          testX := slice_from start (map (lag_row col look_back) times);
          testY := slice_from start (map (lead_row col n_seq) times) |}.
Proof.
  intros Hcol Hdef times start.
  rewrite (create_supervised_eq _ _ _ _ _ _ Hcol)
    by (by apply exact_shift_defined).
  cbv zeta. by rewrite aligned_X_rows, lead_matrix_rows.
Qed.

Lemma create_supervised_rows_witness :
  let col := [Some 1%Q; Some 2%Q; Some 3%Q; Some 4%Q; Some 5%Q; Some 6%Q] in
  let times := seq 1 (length col - 1 - 2) in
  create_supervised (Series col) 1 2 2%Z true =
  Some {| trainX := slice_to 2%Z (map (lag_row col 1) times);
          trainY := slice_to 2%Z (map (lead_row col 2) times);
          testX := slice_from (2 - Z.of_nat 1 - 1)%Z (map (lag_row col 1) times);
          testY := slice_from (2 - Z.of_nat 1 - 1)%Z (map (lead_row col 2) times) |}.
Proof.
  intros col times.
  apply (create_supervised_rows (Series col) 1 2 2%Z true col).
  - reflexivity.
  - repeat constructor; eauto.
Defined.

(** X2. Without overlap the training and test sets partition the aligned
    rows in order, for every input (NaN allowed) and every split point:
    trainX followed by testX is the complete aligned lag matrix, which is
    what the call with split point 0 returns as testX beside an empty
    training set; likewise trainY followed by testY. *)
Theorem create_supervised_partition d look_back n_seq train_split col :
  column0 d = Some col ->
  exists r whole,
    create_supervised d look_back n_seq train_split false = Some r /\
    create_supervised d look_back n_seq 0 false = Some whole /\
    trainX whole = [] /\ trainY whole = [] /\
    trainX r ++ testX r = testX whole /\
    trainY r ++ testY r = testY whole.
Proof.
  intros Hcol. rewrite !(create_supervised_unfold _ _ _ _ _ _ Hcol). cbv zeta.
  eexists _, _. split; [reflexivity |]. split; [reflexivity |].
  cbn [trainX trainY testX testY]. rewrite !slice_to_from.
  unfold slice_to, slice_from, clamp_index. simpl.
  by rewrite !take_0, !drop_0.
Qed.

Lemma create_supervised_partition_witness :
  let col := [Some 1%Q; None; Some 3%Q; Some 4%Q; Some 5%Q; Some 6%Q] in
  exists r whole,
    create_supervised (Series col) 1 1 (-1)%Z false = Some r /\
    create_supervised (Series col) 1 1 0 false = Some whole /\
    trainX whole = [] /\ trainY whole = [] /\
    trainX r ++ testX r = testX whole /\
    trainY r ++ testY r = testY whole.
Proof.
  intros col.
  apply (create_supervised_partition (Series col) 1 1 (-1)%Z col).
  reflexivity.
Defined.

(** X3. When the series has at most look_back + n_seq observations,
    whatever its content, the split point and the overlap mode, all four
    returned matrices are empty. *)
Theorem create_supervised_short_series d look_back n_seq train_split overlap col :
  column0 d = Some col ->
  length col <= look_back + n_seq ->
  create_supervised d look_back n_seq train_split overlap =
  Some {| trainX := []; trainY := []; testX := []; testY := [] |}.
Proof.
  intros Hcol Hshort.
  destruct (exact_shift_dec d col) as [Hexact | Hnan];
    [| by apply (create_supervised_nan _ _ _ _ _ col)].
  rewrite (create_supervised_eq _ _ _ _ _ _ Hcol Hexact). cbv zeta.
  pose proof (length_aligned_bound col look_back n_seq) as HX.
  pose proof (length_aligned_X col look_back n_seq) as HY.
  assert (aligned_X col look_back n_seq = []) as ->
    by (apply length_zero_iff_nil; lia).
  assert (lead_matrix (lag_matrix col look_back) n_seq = []) as ->
    by (apply length_zero_iff_nil; lia).
  unfold slice_to, slice_from. by rewrite !take_nil, !drop_nil.
Qed.

Lemma create_supervised_short_series_witness :
  create_supervised (Series [Some 1%Q; Some 2%Q; Some 3%Q]) 1 2 1%Z true =
  Some {| trainX := []; trainY := []; testX := []; testY := [] |}.
Proof.
  apply (create_supervised_short_series _ 1 2 1%Z true
           [Some 1%Q; Some 2%Q; Some 3%Q]).
  - reflexivity.
  - simpl. lia.
Defined.

(** X4. Every row of trainX and testX has look_back + 1 entries and every
    row of trainY and testY has n_seq entries. *)
Theorem create_supervised_widths d look_back n_seq train_split overlap col :
  column0 d = Some col ->
  exists r,
    create_supervised d look_back n_seq train_split overlap = Some r /\
    Forall (fun row => length row = look_back + 1) (trainX r ++ testX r) /\
    Forall (fun row => length row = n_seq) (trainY r ++ testY r).
Proof.
  intros Hcol. rewrite (create_supervised_unfold _ _ _ _ _ _ Hcol). cbv zeta.
  set (X0 := lag_matrix_by (lag_shift d) col look_back).
  eexists. split; [reflexivity |]. cbn [trainX trainY testX testY].
  assert (Forall (fun row : list cell => length row = look_back + 1) X0) as HX.
  { apply Forall_forall. intros row Hrow.
    apply list_elem_of_In, filter_In in Hrow as [Hrow _].
    apply in_map_iff in Hrow as (t & <- & _).
    by rewrite !length_map, length_seq. }
  assert (Forall (fun row : list cell => length row = n_seq)
            (lead_matrix X0 n_seq)) as HY.
  { apply Forall_forall. intros row Hrow.
    apply list_elem_of_In, filter_In in Hrow as [Hrow _].
    apply in_map_iff in Hrow as (row' & <- & Hrow').
    apply in_map_iff in Hrow' as (t & <- & _).
    rewrite length_drop, !length_map, length_seq. lia. }
  split; apply Forall_app; split;
    try apply Forall_take; try apply Forall_drop; try done;
    by apply Forall_take.
Qed.

Lemma create_supervised_widths_witness :
  exists r,
    create_supervised (Series [Some 1%Q; None; Some 3%Q; Some 4%Q; Some 5%Q])
      1 2 1%Z true = Some r /\
    Forall (fun row => length row = 1 + 1) (trainX r ++ testX r) /\
    Forall (fun row => length row = 2) (trainY r ++ testY r).
Proof.
  apply (create_supervised_widths _ 1 2 1%Z true
           [Some 1%Q; None; Some 3%Q; Some 4%Q; Some 5%Q]).
  reflexivity.
Defined.

(** ** supervised_set: the tables that are returned *)

Lemma append_ne_self (s t : string) : t <> ""%string -> (s +:+ t)%string <> s.
Proof.
  intros Ht. induction s as [| a s IH]; simpl; [done |].
  intros [= H]. by apply IH.
Qed.

Lemma df_set_fresh (tbl : dataframe) name col :
  name ∉ df_columns tbl -> df_set tbl name col = tbl ++ [(name, col)].
Proof.
  unfold df_columns. induction tbl as [| [n c] tbl IH]; intros Hfresh; simpl; [done |].
  simpl in Hfresh. apply not_elem_of_cons in Hfresh as [Hne Hfresh].
  destruct (String.eqb n name) eqn:E.
  - apply String.eqb_eq in E. congruence.
  - by rewrite IH.
Qed.

(** The loop that adds the shifted columns, when the new names are not
    yet in the table. *)
Lemma fold_add_shifted var_name tag sign col ts : forall tbl,
  NoDup ts ->
  (forall t, t ∈ ts -> (var_name +:+ tag +:+ pretty t)%string ∉ df_columns tbl) ->
  fold_left (add_shifted var_name tag sign col) ts tbl =
  tbl ++ map (fun t => ((var_name +:+ tag +:+ pretty t)%string,
                        shift col (sign * t))) ts.
Proof.
  induction ts as [| t ts IH]; intros tbl Hnodup Hfresh; simpl.
  - by rewrite app_nil_r.
  - apply NoDup_cons in Hnodup as [Hnotin Hnodup].
    unfold add_shifted at 2. rewrite df_set_fresh by (apply Hfresh; by left).
    rewrite IH; [by rewrite <- app_assoc | done |].
    intros t' Ht'. unfold df_columns. rewrite map_app. simpl.
    rewrite elem_of_app, list_elem_of_singleton. intros [Hin | Heq].
    + apply (Hfresh t'); [by right | done].
    + apply (inj (String.append _)) in Heq.
      apply (inj (String.append _)) in Heq.
      apply (inj pretty) in Heq. by subst.
Qed.

Lemma NoDup_range1 n : NoDup (range1 n).
Proof.
  unfold range1. apply NoDup_fmap_2; [| apply NoDup_seq].
  intros a b. lia.
Qed.

Lemma fold_add_shifted_start var_name tag sign col n :
  tag <> ""%string ->
  fold_left (add_shifted var_name tag sign col) (range1 n) [(var_name, col)] =
  (var_name, col) ::
    map (fun t => ((var_name +:+ tag +:+ pretty t)%string, shift col (sign * t)))
        (range1 n).
Proof.
  intros Htag. rewrite fold_add_shifted; [done | apply NoDup_range1 |].
  intros t _. unfold df_columns. simpl. rewrite list_elem_of_singleton.
  apply append_ne_self. by destruct tag.
Qed.

(** Rows [a .. n - b - 1] of a lagged (resp. led) copy of the column. *)
Lemma slice_shift_lag (col : list cell) (a b i : nat) :
  0 < b -> i <= a ->
  slice (Z.of_nat a) (- Z.of_nat b) (shift col (Z.of_nat i)) =
  take (length col - a - b) (drop (a - i) col).
Proof.
  intros Hb Hi. unfold slice. rewrite length_shift.
  set (n := length col).
  assert (clamp_index n (Z.of_nat a) = Nat.min a n) as ->.
  { unfold clamp_index. destruct (Z.ltb_spec (Z.of_nat a) 0); lia. }
  assert (clamp_index n (- Z.of_nat b) = n - b) as ->.
  { unfold clamp_index. destruct (Z.ltb_spec (- Z.of_nat b) 0); lia. }
  replace (n - b - Nat.min a n) with (n - a - b) by lia.
  destruct (le_lt_dec (a + b) n) as [Hle | Hlt];
    [| replace (n - a - b) with 0 by lia; by rewrite !take_0].
  replace (Nat.min a n) with a by lia.
  apply list_eq. intros x. rewrite !lookup_take.
  destruct (decide (x < n - a - b)); [| done].
  rewrite !lookup_drop, lookup_shift_lag. fold n.
  destruct (decide (a + x < n)); [| lia].
  destruct (decide (a + x < i)); [lia |]. f_equal. lia.
Qed.

Lemma slice_shift_lead (col : list cell) (a b j : nat) :
  0 < b -> j <= b ->
  slice (Z.of_nat a) (- Z.of_nat b) (shift col (- Z.of_nat j)) =
  take (length col - a - b) (drop (a + j) col).
Proof.
  intros Hb Hj. unfold slice. rewrite length_shift.
  set (n := length col).
  assert (clamp_index n (Z.of_nat a) = Nat.min a n) as ->.
  { unfold clamp_index. destruct (Z.ltb_spec (Z.of_nat a) 0); lia. }
  assert (clamp_index n (- Z.of_nat b) = n - b) as ->.
  { unfold clamp_index. destruct (Z.ltb_spec (- Z.of_nat b) 0); lia. }
  replace (n - b - Nat.min a n) with (n - a - b) by lia.
  destruct (le_lt_dec (a + b) n) as [Hle | Hlt];
    [| replace (n - a - b) with 0 by lia; by rewrite !take_0].
  replace (Nat.min a n) with a by lia.
  apply list_eq. intros x. rewrite !lookup_take.
  destruct (decide (x < n - a - b)); [| done].
  rewrite !lookup_drop, lookup_shift_lead. fold n.
  destruct (decide (a + x < n)); [| lia].
  destruct (decide (a + x + j < n)); [| lia]. f_equal. lia.
Qed.

Lemma shift_zero (col : list cell) : shift col 0 = col.
Proof. unfold shift. simpl. apply take_ge. lia. Qed.

Lemma slice_from_pos {A} (k : Z) (l : list A) :
  (0 < k)%Z -> slice_from k l = drop (Z.to_nat k) l.
Proof.
  intros Hk. unfold slice_from, clamp_index.
  destruct (Z.ltb_spec k 0); [lia |].
  destruct (le_lt_dec (Z.to_nat k) (length l)) as [Hle | Hlt].
  - f_equal. lia.
  - replace (Nat.min (Z.to_nat k) (length l)) with (length l) by lia.
    rewrite !drop_ge; [done | lia | lia].
Qed.

(** X5. For a table that holds the column, [lag >= 0] and [lead >= 1],
    supervised_set returns tables of [n - lag - lead] rows (none when the
    column is shorter). Row r of the lag table is reference time
    [lag + r]: the column var holds the value at that time and var_lag_i
    the value i steps earlier; var_lead_j of the lead table holds the
    value j steps later. A positive operational_lag removes that many
    columns from the left of the lag table, the current-value column
    first. *)
Theorem supervised_set_tables df var_name col (lag lead : nat) operational_lag :
  df_get df var_name = Some col ->
  0 < lead ->
  let k := length col - lag - lead in
  let lag_table :=
    (var_name, take k (drop lag col)) ::
    map (fun i => ((var_name +:+ "_lag_" +:+ pretty (Z.of_nat i))%string,
                   take k (drop (lag - i) col))) (seq 1 lag) in
  let lead_table :=
    map (fun j => ((var_name +:+ "_lead_" +:+ pretty (Z.of_nat j))%string,
                   take k (drop (lag + j) col))) (seq 1 lead) in
  supervised_set df var_name (Z.of_nat lag) (Z.of_nat lead) operational_lag =
  Some (if (0 <? operational_lag)%Z
        then drop (Z.to_nat operational_lag) lag_table else lag_table,
        lead_table).
Proof.
  intros Hcol Hlead k lag_table lead_table.
  unfold supervised_set. rewrite Hcol.
  rewrite !fold_add_shifted_start by done.
  unfold range1. rewrite !Nat2Z.id, !map_map. unfold df_rows.
  cbn [map fst snd]. rewrite !map_map. cbn [fst snd].
  assert (slice (Z.of_nat lag) (- Z.of_nat lead) col = take k (drop lag col)) as ->.
  { pose proof (slice_shift_lag col lag lead 0) as H0.
    change (Z.of_nat 0) with 0%Z in H0.
    rewrite shift_zero, Nat.sub_0_r in H0. apply H0; lia. }
  assert (map (fun x => ((var_name +:+ "_lag_" +:+ pretty (Z.of_nat x))%string,
                         slice (Z.of_nat lag) (- Z.of_nat lead)
                           (shift col (1 * Z.of_nat x)))) (seq 1 lag)
          = map (fun i => ((var_name +:+ "_lag_" +:+ pretty (Z.of_nat i))%string,
                           take k (drop (lag - i) col))) (seq 1 lag)) as ->.
  { apply map_ext_in. intros i Hi. apply in_seq in Hi.
    rewrite Z.mul_1_l, slice_shift_lag by lia. done. }
  assert (map (fun x => ((var_name +:+ "_lead_" +:+ pretty (Z.of_nat x))%string,
                         slice (Z.of_nat lag) (- Z.of_nat lead)
                           (shift col (-1 * Z.of_nat x)))) (seq 1 lead)
          = lead_table) as ->.
  { apply map_ext_in. intros j Hj. apply in_seq in Hj.
    replace (-1 * Z.of_nat j)%Z with (- Z.of_nat j)%Z by lia.
    rewrite slice_shift_lead by lia. done. }
  fold lag_table. f_equal. f_equal.
  - destruct (Z.ltb_spec 0 operational_lag); [| done].
    unfold df_iloc_cols_from. by apply slice_from_pos.
  - unfold df_drop. cbn [List.filter fst]. rewrite String.eqb_refl. cbn [negb].
    apply filter_all. intros [name c] Hin. cbn [fst].
    apply list_elem_of_fmap in Hin as (j & [= -> _] & _).
    apply negb_true_iff, String.eqb_neq.
    by apply append_ne_self.
Qed.

Lemma supervised_set_tables_witness :
  let col := [Some 1%Q; Some 2%Q; None; Some 4%Q; Some 5%Q] in
  let df := [("t"%string, [None; None; None; None; None]); ("x"%string, col)] in
  let k := length col - 2 - 1 in
  let lag_table :=
    ("x"%string, take k (drop 2 col)) ::
    map (fun i => (("x" +:+ "_lag_" +:+ pretty (Z.of_nat i))%string,
                   take k (drop (2 - i) col))) (seq 1 2) in
  let lead_table :=
    map (fun j => (("x" +:+ "_lead_" +:+ pretty (Z.of_nat j))%string,
                   take k (drop (2 + j) col))) (seq 1 1) in
  supervised_set df "x" (Z.of_nat 2) (Z.of_nat 1) 1 =
  Some (if (0 <? 1)%Z then drop (Z.to_nat 1) lag_table else lag_table,
        lead_table).
Proof.
  intros col df k lag_table lead_table.
  apply (supervised_set_tables df "x" col 2 1 1).
  - reflexivity.
  - lia.
Defined.

Example supervised_set_operational_lag_sample :
  supervised_set [("x"%string, [Some 1%Q; Some 2%Q; Some 3%Q; Some 4%Q; Some 5%Q])]
    "x" 2 1 1 =
  Some ([("x_lag_1"%string, [Some 2%Q; Some 3%Q]);
         ("x_lag_2"%string, [Some 1%Q; Some 2%Q])],
        [("x_lead_1"%string, [Some 4%Q; Some 5%Q])]).
Proof. reflexivity. Qed.

(** * Further properties of lagged_predictors_pd *)

(** X6. lagged_predictors_pd is idempotent on the caller's table: a
    second call with the same arguments on the updated table selects the
    same lags, rewrites the same columns with the same contents and
    returns the same names, so the store after the second call is the
    store after the first. *)
Theorem lagged_predictors_pd_idempotent pacf (h : store) df tbl col_name col
    freq d operational_lag thres da_auction :
  h !! df = Some tbl ->
  df_get tbl col_name = Some col ->
  exists h' r,
    lagged_predictors_pd pacf h df col_name freq d operational_lag thres da_auction
      = Some (h', r) /\
    lagged_predictors_pd pacf h' df col_name freq d operational_lag thres da_auction
      = Some (h', r).
Proof.
  intros Hdf Hcol.
  destruct (lagged_predictors_pd_run pacf h df tbl col_name col freq d
              operational_lag thres da_auction Hdf Hcol)
    as (tbl' & Hrun & Hcol' & Hnew & _).
  eexists _, _. split; [exact Hrun |].
  unfold lagged_predictors_pd. rewrite lookup_insert_eq, Hcol'.
  rewrite (add_lag_columns_again col_name col tbl' _ [] Hcol' Hnew).
  by rewrite insert_insert_eq.
Qed.

Lemma lagged_predictors_pd_idempotent_witness :
  let pacf := fun (_ : list cell) (_ : nat) =>
                [Some 1%Q; Some (1 # 2)%Q; Some (- (1 # 2))%Q] in
  let h : store := {[ 7 := [("x"%string, [Some 1%Q; Some 2%Q; Some 3%Q])] ]} in
  exists h' r,
    lagged_predictors_pd pacf h 7 "x" 1 2 (-1) (1 # 10) false = Some (h', r) /\
    lagged_predictors_pd pacf h' 7 "x" 1 2 (-1) (1 # 10) false = Some (h', r).
Proof.
  intros pacf h.
  apply (lagged_predictors_pd_idempotent pacf h 7
           [("x"%string, [Some 1%Q; Some 2%Q; Some 3%Q])] "x"
           [Some 1%Q; Some 2%Q; Some 3%Q] 1 2 (-1)%Z (1 # 10) false).
  - reflexivity.
  - reflexivity.
Defined.

(** X7. The names returned by lagged_predictors_pd are pairwise distinct,
    there is one per selected lag, none of them is the target column, and
    the target column of the updated table is unchanged. *)
Theorem lagged_predictors_pd_names pacf (h : store) df tbl col_name col
    freq d operational_lag thres da_auction :
  h !! df = Some tbl ->
  df_get tbl col_name = Some col ->
  exists h' tbl' names,
    lagged_predictors_pd pacf h df col_name freq d operational_lag thres da_auction
      = Some (h', (df, names)) /\
    NoDup names /\
    length names =
      length (selected_lags (pacf col d) thres freq operational_lag da_auction) /\
    (col_name ∉ names) /\
    h' !! df = Some tbl' /\
    df_get tbl' col_name = Some col.
Proof.
  intros Hdf Hcol.
  destruct (lagged_predictors_pd_run pacf h df tbl col_name col freq d
              operational_lag thres da_auction Hdf Hcol)
    as (tbl' & Hrun & Hcol' & _).
  eexists _, tbl', _. split; [exact Hrun |].
  split; [| split; [| split; [| split; [apply lookup_insert_eq | done]]]].
  - apply NoDup_fmap_2; [apply lag_name_inj | apply NoDup_selected_lags].
  - by rewrite length_map.
  - intros Hin. apply list_elem_of_fmap in Hin as (lag & Heq & _).
    symmetry in Heq. by apply lag_name_ne_col in Heq.
Qed.

Lemma lagged_predictors_pd_names_witness :
  let pacf := fun (_ : list cell) (_ : nat) =>
                [Some 1%Q; Some (1 # 2)%Q; Some (- (1 # 2))%Q] in
  let col := [Some 1%Q; Some 2%Q; Some 3%Q] in
  let h : store := {[ 7 := [("x"%string, col)] ]} in
  exists h' tbl' names,
    lagged_predictors_pd pacf h 7 "x" 1 2 (-1) (1 # 10) false
      = Some (h', (7, names)) /\
    NoDup names /\
    length names = length (selected_lags (pacf col 2) (1 # 10) 1 (-1) false) /\
    ("x"%string ∉ names) /\
    h' !! 7 = Some tbl' /\
    df_get tbl' "x" = Some col.
Proof.
  intros pacf col h.
  apply (lagged_predictors_pd_names pacf h 7 [("x"%string, col)] "x" col
           1 2 (-1)%Z (1 # 10) false).
  - reflexivity.
  - reflexivity.
Defined.

(** * Further properties of pit_eval *)

Lemma pit_rows_values quantiles quant_pred target : forall i PIT,
  pit_rows quantiles quant_pred target i = Returned PIT ->
  length PIT = length target /\
  Forall (fun v => v ∈ quantiles \/ v = 1%Q) PIT.
Proof.
  induction target as [| t target IH]; intros i PIT; simpl.
  - intros [= <-]. by split.
  - destruct (quant_pred !! i) as [row |]; [| discriminate].
    unfold pit_value.
    destruct (first_reaching row t) as [j |].
    + destruct (quantiles !! j) as [y |] eqn:Hy; [| discriminate]. cbn [bind].
      destruct (pit_rows quantiles quant_pred target (S i)) as [vs | | | |] eqn:E;
        try discriminate.
      cbn [bind]. intros [= <-]. destruct (IH _ _ E) as [Hlen Hall].
      split; [simpl; lia |]. constructor; [| done].
      left. by eapply list_elem_of_lookup_2.
    + cbn [bind].
      destruct (pit_rows quantiles quant_pred target (S i)) as [vs | | | |] eqn:E;
        try discriminate.
      cbn [bind]. intros [= <-]. destruct (IH _ _ E) as [Hlen Hall].
      split; [simpl; lia |]. constructor; [by right | done].
Qed.

(** X8. Whenever pit_eval returns, it returns one value per observation
    and every value is one of the supplied quantile levels or the
    fallback 1, whatever the order of the levels and the content of the
    prediction matrix. *)
Theorem pit_eval_range target quant_pred quantiles PIT :
  pit_eval target quant_pred quantiles = Returned PIT ->
  length PIT = length target /\
  Forall (fun v => v ∈ quantiles \/ v = 1%Q) PIT.
Proof. apply pit_rows_values. Qed.

Lemma pit_eval_range_witness :
  length [1 # 2; 1; 3 # 4]%Q = length [2; 9; 0]%Q /\
  Forall (fun v => v ∈ [3 # 4; 1 # 4; 1 # 2]%Q \/ v = 1%Q) [1 # 2; 1; 3 # 4]%Q.
Proof.
  apply (pit_eval_range [2; 9; 0]%Q [[1; 0; 3]; [1; 2; 3]; [1; 2; 3]]%Q
           [3 # 4; 1 # 4; 1 # 2]%Q).
  reflexivity.
Defined.

Lemma pit_rows_too_few quantiles quant_pred target : forall i,
  target <> [] ->
  length quant_pred < i + length target ->
  pit_rows quantiles quant_pred target i = IndexError.
Proof.
  induction target as [| t target IH]; intros i Hne Hlen; [done |].
  simpl in *. destruct (quant_pred !! i) as [row |] eqn:Hrow; [| done].
  apply lookup_lt_Some in Hrow.
  assert (pit_rows quantiles quant_pred target (S i) = IndexError) as Hrest.
  { apply IH; [| lia]. intros ->. simpl in Hlen. lia. }
  unfold pit_value. destruct (first_reaching row t) as [j |].
  - destruct (quantiles !! j); [| done]. cbn [bind]. by rewrite Hrest.
  - cbn [bind]. by rewrite Hrest.
Qed.

(** X9. When the prediction matrix has fewer rows than there are
    observations, pit_eval raises IndexError. *)
Theorem pit_eval_too_few_rows target quant_pred quantiles :
  length quant_pred < length target ->
  pit_eval target quant_pred quantiles = IndexError.
Proof.
  intros Hlen. unfold pit_eval. apply pit_rows_too_few; [| done].
  intros ->. simpl in Hlen. lia.
Qed.

Lemma pit_eval_too_few_rows_witness :
  pit_eval [2; 9]%Q [[1; 2; 3]]%Q [1 # 4; 1 # 2; 3 # 4]%Q = IndexError.
Proof.
  apply (pit_eval_too_few_rows [2; 9]%Q [[1; 2; 3]]%Q [1 # 4; 1 # 2; 3 # 4]%Q).
  simpl. lia.
Defined.

(** * Further properties of the scoring functions *)

Local Open Scope Q_scope.

(** ** Arrays built by [tabulate] *)

Lemma get_tabulate r c f i j :
  (i < r)%nat -> (j < c)%nat -> get (tabulate r c f) i j = f i j.
Proof.
  intros Hi Hj. unfold get, tabulate. cbn [elems].
  rewrite (nth_map_seq _ 0 r i []) by done.
  by rewrite (nth_map_seq _ 0 c j 0) by done.
Qed.

Lemma flat_map_ext_seq {B} (f g : nat -> list B) l :
  (forall i, In i l -> f i = g i) -> flat_map f l = flat_map g l.
Proof.
  induction l as [| x l IH]; intros H; simpl; [done |].
  rewrite (H x) by (by left). f_equal. apply IH. intros i Hi. apply H. by right.
Qed.

Lemma flatten_tabulate r c f :
  flatten (tabulate r c f) =
  flat_map (fun i => map (f i) (seq 0 c)) (seq 0 r).
Proof.
  unfold flatten. cbn [nrows ncols tabulate].
  apply flat_map_ext_seq. intros i Hi. apply in_seq in Hi.
  apply map_ext_in. intros j Hj. apply in_seq in Hj.
  apply get_tabulate; lia.
Qed.

Lemma Forall_flatten_tabulate (P : Q -> Prop) r c f :
  (forall i j, (i < r)%nat -> (j < c)%nat -> P (f i j)) ->
  Forall P (flatten (tabulate r c f)).
Proof.
  intros H. rewrite flatten_tabulate. apply Forall_forall. intros x Hx.
  apply list_elem_of_In, in_flat_map in Hx as (i & Hi & Hx).
  apply in_map_iff in Hx as (j & <- & Hj).
  apply in_seq in Hi. apply in_seq in Hj. apply H; lia.
Qed.

Lemma length_flatten_tabulate r c f :
  length (flatten (tabulate r c f)) = (r * c)%nat.
Proof.
  rewrite flatten_tabulate. induction r as [| r IH].
  - done.
  - replace (S r) with (r + 1)%nat by lia.
    rewrite seq_app, flat_map_app, length_app, IH. simpl.
    rewrite app_nil_r, length_map, length_seq. lia.
Qed.

(** ** Sums and means *)

Lemma fold_left_Qplus l acc : fold_left Qplus l acc == acc + sum_list l.
Proof.
  unfold sum_list. revert acc. induction l as [| x l IH]; intros acc; simpl.
  - ring.
  - rewrite IH, (IH (0 + x)). ring.
Qed.

Lemma sum_list_cons x l : sum_list (x :: l) == x + sum_list l.
Proof. unfold sum_list at 1. simpl. rewrite fold_left_Qplus. ring. Qed.

Lemma sum_list_zero l : Forall (fun x => x == 0) l -> sum_list l == 0.
Proof.
  induction 1 as [| x l Hx _ IH]; [reflexivity |].
  rewrite sum_list_cons, Hx, IH. ring.
Qed.

Lemma sum_list_nonneg l : Forall (fun x => 0 <= x) l -> 0 <= sum_list l.
Proof.
  induction 1 as [| x l Hx _ IH]; [apply Qle_refl |].
  rewrite sum_list_cons. by apply (Qplus_le_compat 0 x 0 (sum_list l)).
Qed.

Lemma mean_list_zero l :
  l <> [] -> Forall (fun x => x == 0) l -> mean_list l = Some 0.
Proof.
  intros Hne Hall. destruct l as [| x l]; [done |]. unfold mean_list.
  f_equal. apply (Qred_complete _ 0).
  rewrite (sum_list_zero _ Hall). apply Qmult_0_l.
Qed.

Lemma mean_list_nonneg l v :
  Forall (fun x => 0 <= x) l -> mean_list l = Some v -> 0 <= v.
Proof.
  intros Hall. destruct l as [| x l]; [discriminate |]. unfold mean_list.
  intros [= <-]. rewrite Qred_correct.
  apply Qle_shift_div_l.
  - change 0 with (inject_Z 0). rewrite <- Zlt_Qlt. simpl. lia.
  - rewrite Qmult_0_l. by apply sum_list_nonneg.
Qed.

Lemma mean_flatten_zero r c f :
  (0 < r)%nat -> (0 < c)%nat ->
  (forall i j, (i < r)%nat -> (j < c)%nat -> f i j == 0) ->
  mean_list (flatten (tabulate r c f)) = Some 0.
Proof.
  intros Hr Hc Hf. apply mean_list_zero.
  - intros Hnil. apply (f_equal length) in Hnil.
    rewrite length_flatten_tabulate in Hnil. simpl in Hnil. nia.
  - by apply Forall_flatten_tabulate.
Qed.

Lemma bidx_lt m i : (i < m)%nat -> (bidx m i < m)%nat.
Proof. unfold bidx. destruct (Nat.eqb m 1); lia. Qed.

Lemma broadcast2_same_shape f a b :
  shape a = shape b ->
  broadcast2 f a b =
  Returned (tabulate (nrows a) (ncols a) (fun i j =>
    f (get a (bidx (nrows a) i) (bidx (ncols a) j))
      (get b (bidx (nrows a) i) (bidx (ncols a) j)))).
Proof.
  unfold shape. intros [= Hr Hc]. unfold broadcast2.
  by rewrite <- Hr, <- Hc, !broadcast_dim_refl.
Qed.

Lemma has_zero_false a :
  (forall i j, (i < nrows a)%nat -> (j < ncols a)%nat -> ~ get a i j == 0) ->
  has_zero a = false.
Proof.
  intros H. unfold has_zero, flatten. apply not_true_is_false. intros E.
  apply existsb_exists in E as (x & Hin & Hx).
  apply in_flat_map in Hin as (i & Hi & Hin).
  apply in_map_iff in Hin as (j & <- & Hj).
  apply in_seq in Hi. apply in_seq in Hj. apply Qeq_bool_iff in Hx.
  apply (H i j); [lia | lia | done].
Qed.

(** X10. On a non-empty array without zero entries,
    eval_point_pred(p, p) returns MAPE 0, RMSE sqrt(0) and MAE 0. (A zero
    entry makes NumPy divide 0 by 0 in the MAPE, which is then NaN.) *)
Theorem eval_point_pred_identical (sqrt : Q -> Q) p :
  (0 < nrows p)%nat -> (0 < ncols p)%nat ->
  (forall i j, (i < nrows p)%nat -> (j < ncols p)%nat -> ~ get p i j == 0) ->
  eval_point_pred sqrt p p None = Returned (Some 0, Some (sqrt 0), Some 0).
Proof.
  intros Hr Hc Hnz. unfold eval_point_pred.
  rewrite (proj2 (shape_eqb_spec _ _) eq_refl). cbn [negb].
  rewrite (has_zero_false p Hnz).
  rewrite broadcast2_same_shape by done. cbn [bind].
  rewrite broadcast2_same_shape by done. cbn [bind nrows ncols tabulate].
  unfold arr_map. cbn [nrows ncols tabulate round_opt].
  set (fd := fun i j => get p (bidx (nrows p) i) (bidx (ncols p) j)
                        - get p (bidx (nrows p) i) (bidx (ncols p) j)).
  assert (forall i j, (i < nrows p)%nat -> (j < ncols p)%nat ->
            get (tabulate (nrows p) (ncols p) fd) i j == 0) as Hd.
  { intros i j Hi Hj. rewrite get_tabulate by done. unfold fd. ring. }
  set (fr := fun i j => get (tabulate (nrows p) (ncols p) fd)
                            (bidx (nrows p) i) (bidx (ncols p) j)
                        / get p (bidx (nrows p) i) (bidx (ncols p) j)).
  assert (forall i j, (i < nrows p)%nat -> (j < ncols p)%nat ->
            get (tabulate (nrows p) (ncols p) fr) i j == 0) as Hq.
  { intros i j Hi Hj. rewrite get_tabulate by done. unfold fr, Qdiv.
    rewrite Hd by (by apply bidx_lt). ring. }
  rewrite !mean_flatten_zero; try done.
  - intros i j Hi Hj. rewrite Hd by done. reflexivity.
  - intros i j Hi Hj. rewrite Hd by done. ring.
  - intros i j Hi Hj. rewrite Hq by done. reflexivity.
Qed.

Lemma eval_point_pred_identical_witness :
  eval_point_pred (fun x => x) (mkArr 2 2 [[1; 2]; [3; -4]]) (mkArr 2 2 [[1; 2]; [3; -4]])
    None = Returned (Some 0, Some 0, Some 0).
Proof.
  apply (eval_point_pred_identical (fun x => x) (mkArr 2 2 [[1; 2]; [3; -4]])).
  - simpl. lia.
  - simpl. lia.
  - intros i j Hi Hj. simpl in Hi, Hj.
    destruct i as [| [| i]], j as [| [| j]]; try lia; by vm_compute.
Defined.

(** ** Rounding *)

Lemma rint_error x :
  inject_Z (rint x) - x <= 1 # 2 /\ x - inject_Z (rint x) <= 1 # 2.
Proof.
  unfold rint. pose proof (Qfloor_le x) as Hlo. pose proof (Qlt_floor x) as Hhi.
  rewrite inject_Z_plus in Hhi. change (inject_Z 1) with 1 in Hhi.
  destruct (Qcompare_spec (x - inject_Z (Qfloor x)) (1 # 2)) as [He | Hl | Hg].
  - destruct (Z.even (Qfloor x)); rewrite ?inject_Z_plus;
      change (inject_Z 1) with 1; lra.
  - lra.
  - rewrite inject_Z_plus. change (inject_Z 1) with 1. lra.
Qed.

Lemma rint_nonneg x : 0 <= x -> (0 <= rint x)%Z.
Proof.
  intros Hx. assert (0 <= Qfloor x)%Z as Hf.
  { change 0%Z with (Qfloor 0). by apply Qfloor_resp_le. }
  unfold rint. destruct (Qcompare _ _); [destruct (Z.even _) | |]; lia.
Qed.

Lemma pow10_nonneg k : 0 <= inject_Z (10 ^ k).
Proof.
  change 0 with (inject_Z 0). rewrite <- Zle_Qle.
  apply Z.pow_nonneg. lia.
Qed.

Lemma py_round_nonneg x digits : 0 <= x -> 0 <= py_round x digits.
Proof.
  intros Hx. unfold py_round. pose proof (pow10_nonneg digits) as Hp.
  pose proof (pow10_nonneg (- digits)) as Hn.
  destruct (0 <=? digits)%Z; rewrite Qred_correct.
  - apply Qmult_le_0_compat; [| by apply Qinv_le_0_compat].
    change 0 with (inject_Z 0). rewrite <- Zle_Qle. apply rint_nonneg.
    by apply Qmult_le_0_compat.
  - apply Qmult_le_0_compat; [| done].
    change 0 with (inject_Z 0). rewrite <- Zle_Qle. apply rint_nonneg.
    apply Qmult_le_0_compat; [done | by apply Qinv_le_0_compat].
Qed.

(** Rounding to [digits >= 0] decimals moves a value by at most half a
    unit of the last kept decimal. *)
Lemma py_round_error x digits :
  (0 <= digits)%Z ->
  Qabs (py_round x digits - x) <= (1 # 2) / inject_Z (10 ^ digits).
Proof.
  intros Hd. unfold py_round. destruct (Z.leb_spec 0 digits); [| lia].
  rewrite Qred_correct. set (P := inject_Z (10 ^ digits)).
  assert (0 < P) as HP.
  { unfold P. change 0 with (inject_Z 0). rewrite <- Zlt_Qlt.
    apply Z.pow_pos_nonneg; lia. }
  destruct (rint_error (x * P)) as [H1 H2].
  assert (0 <= / P) as Hinv by (apply Qinv_le_0_compat; lra).
  assert (inject_Z (rint (x * P)) / P - x
          == (inject_Z (rint (x * P)) - x * P) * / P) as -> by (field; lra).
  apply Qabs_Qle_condition. unfold Qdiv. split.
  - assert (- ((1 # 2) * / P) == (- (1 # 2)) * / P) as -> by ring.
    apply Qmult_le_compat_r; [lra | done].
  - apply Qmult_le_compat_r; [lra | done].
Qed.

Lemma rint_zero x : x == 0 -> rint x = 0%Z.
Proof.
  intros Hx. destruct (rint_error x) as [H1 H2].
  assert (inject_Z (rint x) < inject_Z 1) as Hlt by (change (inject_Z 1) with 1; lra).
  assert (inject_Z (-1) < inject_Z (rint x)) as Hgt
    by (change (inject_Z (-1)) with (-1 # 1); lra).
  rewrite <- Zlt_Qlt in Hlt, Hgt. lia.
Qed.

Lemma py_round_zero digits : py_round 0 digits = 0.
Proof.
  unfold py_round. destruct (0 <=? digits)%Z.
  - rewrite rint_zero by ring. apply (Qred_complete _ 0). unfold Qdiv. ring.
  - rewrite rint_zero by (unfold Qdiv; ring). apply (Qred_complete _ 0). ring.
Qed.

(** X11. brier_score never returns a negative score, whatever the shapes
    and the digits argument. *)
Theorem brier_score_nonneg predictions actual digits v :
  brier_score predictions actual digits = Returned (Some v) -> 0 <= v.
Proof.
  unfold brier_score, broadcast2.
  destruct (broadcast_dim _ _) as [r |]; [| discriminate].
  destruct (broadcast_dim _ _) as [c |]; [| discriminate].
  cbn [bind]. intros [= Hv].
  match type of Hv with round_opt _ (mean_list ?L) = _ =>
    assert (Forall (fun x => 0 <= x) L) as Hall end.
  { unfold arr_map. cbn [nrows ncols tabulate].
    apply Forall_flatten_tabulate. intros i j _ _.
    generalize (get (tabulate r c
      (fun i0 j0 => get predictions (bidx (nrows predictions) i0)
                      (bidx (ncols predictions) j0)
                    - get actual (bidx (nrows actual) i0)
                        (bidx (ncols actual) j0))) i j).
    intros x. unfold Qle, Qmult. simpl. nia. }
  destruct (mean_list _) as [m |] eqn:Hm; [| by destruct digits].
  pose proof (mean_list_nonneg _ _ Hall Hm) as Hm0.
  destruct digits as [d |]; simpl in Hv; injection Hv as <-; [| done].
  by apply py_round_nonneg.
Qed.

Lemma brier_score_nonneg_witness : 0 <= 1 # 2.
Proof.
  apply (brier_score_nonneg (mkArr 2 1 [[1]; [0]]) (mkArr 1 2 [[1; 0]]) None (1 # 2)).
  reflexivity.
Defined.

(** X12. On two identical non-empty arrays brier_score returns 0,
    whatever the digits argument. *)
Theorem brier_score_identical p digits :
  (0 < nrows p)%nat -> (0 < ncols p)%nat ->
  brier_score p p digits = Returned (Some 0).
Proof.
  intros Hr Hc. unfold brier_score.
  rewrite broadcast2_same_shape by done. cbn [bind].
  unfold arr_map. cbn [nrows ncols tabulate].
  rewrite mean_flatten_zero; try done.
  - destruct digits as [d |]; simpl; [| done]. by rewrite py_round_zero.
  - intros i j Hi Hj. rewrite get_tabulate by done. ring.
Qed.

Lemma brier_score_identical_witness :
  brier_score (mkArr 1 3 [[1 # 3; 0; 1]]) (mkArr 1 3 [[1 # 3; 0; 1]]) (Some 2%Z)
  = Returned (Some 0).
Proof.
  apply (brier_score_identical (mkArr 1 3 [[1 # 3; 0; 1]]) (Some 2%Z)); simpl; lia.
Defined.

(** * Further properties of VaR and CVaR *)

(** X13. With the default digits, VaR and CVaR return a value within
    0.0005 of what they return with digits=None. *)
Theorem VaR_CVaR_default_accuracy data quant :
  (forall v, VaR data quant Omitted = Some v ->
     exists u, VaR data quant (Passed None) = Some u /\
               Qabs (v - u) <= 1 # 2000) /\
  (forall v, CVaR data quant Omitted = Some (Some v) ->
     exists u, CVaR data quant (Passed None) = Some (Some u) /\
               Qabs (v - u) <= 1 # 2000).
Proof.
  split; intros v.
  - unfold VaR. cbn [arg_or]. destruct (np_quantile data _) as [u |]; [| discriminate].
    intros [= <-]. exists u. split; [done |].
    pose proof (py_round_error u 3) as H. apply H. lia.
  - unfold CVaR. cbn [arg_or]. destruct (np_quantile data _) as [q |]; [| discriminate].
    destruct (mean_list _) as [u |]; [| discriminate]. simpl.
    intros [= <-]. exists u. split; [done |].
    pose proof (py_round_error u 3) as H. apply H. lia.
Qed.

Lemma sorted_nth_le a : forall i j,
  StronglySorted Qle a -> (i <= j)%nat -> (j < length a)%nat ->
  nth i a 0 <= nth j a 0.
Proof.
  induction a as [| y a IH]; intros i j Hs Hij Hj; simpl in Hj; [lia |].
  apply StronglySorted_inv in Hs as [Hs Hy].
  destruct i as [| i], j as [| j]; simpl; try lia.
  - apply Qle_refl.
  - eapply Forall_forall in Hy; [exact Hy |].
    apply list_elem_of_In, nth_In. lia.
  - apply IH; [done | lia | lia].
Qed.

Lemma nth_np_sort_elem data i :
  (i < length data)%nat -> nth i (np_sort data) 0 ∈ data.
Proof.
  intros Hi. apply elem_of_np_sort, list_elem_of_In, nth_In.
  by rewrite length_np_sort.
Qed.

(** The two order statistics between which np.quantile interpolates. *)
Lemma np_quantile_between data level v :
  np_quantile data level = Some v ->
  exists lo hi, (lo <= hi)%nat /\ (hi < length data)%nat /\
    nth lo (np_sort data) 0 <= v /\ v <= nth hi (np_sort data) 0.
Proof.
  intros Hv. assert (data <> []) as Hne by (by destruct data).
  destruct (Qle_bool 0 level && Qle_bool level 1) eqn:Hlevel;
    [| destruct data; [done | unfold np_quantile in Hv; by rewrite Hlevel in Hv]].
  rewrite np_quantile_unfold in Hv by done. cbv zeta in Hv.
  apply (inj Some) in Hv. subst v.
  apply andb_true_iff in Hlevel as [H0 H1].
  apply Qle_bool_iff in H0, H1.
  set (n := length data). assert (0 < n)%nat as Hn.
  { unfold n. destruct data; [done | simpl; lia]. }
  set (h := inject_Z (Z.of_nat (n - 1)) * level).
  assert (0 <= inject_Z (Z.of_nat (n - 1))) as Hm.
  { change 0 with (inject_Z 0). rewrite <- Zle_Qle. lia. }
  assert (0 <= h) as Hh0 by (by apply Qmult_le_0_compat).
  assert (h <= inject_Z (Z.of_nat (n - 1))) as Hh1.
  { unfold h. rewrite <- (Qmult_1_r (inject_Z (Z.of_nat (n - 1)))) at 2.
    rewrite !(Qmult_comm (inject_Z _)). by apply Qmult_le_compat_r. }
  assert (0 <= Qfloor h)%Z as Hf0.
  { change 0%Z with (Qfloor 0). by apply Qfloor_resp_le. }
  assert (Qfloor h <= Z.of_nat (n - 1))%Z as Hf1.
  { rewrite <- (Qfloor_Z (Z.of_nat (n - 1))). by apply Qfloor_resp_le. }
  set (lo := Z.to_nat (Qfloor h)).
  assert (inject_Z (Z.of_nat lo) = inject_Z (Qfloor h)) as Hlo
    by (unfold lo; by rewrite Z2Nat.id).
  rewrite Hlo. set (hi := Nat.min (lo + 1) (n - 1)).
  assert (lo <= hi)%nat as Hlohi by (unfold hi, lo; lia).
  assert (hi < n)%nat as Hhi by (unfold hi; lia).
  exists lo, hi. split; [done |]. split; [done |].
  pose proof (sorted_nth_le (np_sort data) lo hi (np_sort_sorted data) Hlohi) as Hs.
  rewrite length_np_sort in Hs. specialize (Hs Hhi).
  pose proof (Qfloor_le h) as Hg0. pose proof (Qlt_floor h) as Hg1.
  rewrite inject_Z_plus in Hg1. change (inject_Z 1) with 1 in Hg1.
  rewrite Qred_correct.
  set (g := h - inject_Z (Qfloor h)). set (x := nth lo (np_sort data) 0) in *.
  set (y := nth hi (np_sort data) 0) in *.
  assert (0 <= g) as Hg by (unfold g; lra).
  assert (g <= 1) as Hg' by (unfold g; lra).
  assert (0 <= g * (y - x)) as Hp by (apply Qmult_le_0_compat; lra).
  assert (g * (y - x) <= 1 * (y - x)) as Hp'
    by (apply Qmult_le_compat_r; lra).
  split; lra.
Qed.

(** X14. Without rounding, VaR lies between two values of the sample:
    the order statistics around position (n - 1) * quant. In particular
    it never leaves the range of the data. *)
Theorem VaR_within_sample data quant v :
  VaR data quant (Passed None) = Some v ->
  exists x y, x ∈ data /\ y ∈ data /\ x <= v /\ v <= y.
Proof.
  unfold VaR. cbn [arg_or].
  destruct (np_quantile data _) as [u |] eqn:Hu; [| discriminate].
  intros [= <-].
  destruct (np_quantile_between _ _ _ Hu) as (lo & hi & Hlohi & Hhi & Hx & Hy).
  exists (nth lo (np_sort data) 0), (nth hi (np_sort data) 0).
  split; [apply nth_np_sort_elem; lia |].
  split; [by apply nth_np_sort_elem | done].
Qed.

Lemma VaR_within_sample_witness :
  exists x y, x ∈ [3; 1; 2; 5] /\ y ∈ [3; 1; 2; 5] /\ x <= 11 # 4 /\ 11 # 4 <= y.
Proof.
  apply (VaR_within_sample [3; 1; 2; 5] (Passed (7 # 12)) (11 # 4)).
  reflexivity.
Defined.

Lemma mean_list_le l v :
  l <> [] -> Forall (fun x => x <= v) l ->
  exists m, mean_list l = Some m /\ m <= v.
Proof.
  intros Hne Hall. destruct l as [| x l]; [done |]. unfold mean_list.
  eexists. split; [reflexivity |]. rewrite Qred_correct.
  set (L := x :: l) in *. clearbody L.
  assert (0 < inject_Z (Z.of_nat (length L))) as Hlen.
  { change 0 with (inject_Z 0). rewrite <- Zlt_Qlt.
    destruct L; [done | simpl; lia]. }
  apply Qle_shift_div_r; [done |].
  clear Hne Hlen. induction Hall as [| y L Hy _ IH].
  - unfold sum_list. simpl. change (inject_Z (Z.of_nat 0)) with 0. lra.
  - rewrite sum_list_cons. cbn [length].
    rewrite Nat2Z.inj_succ, <- Z.add_1_r, inject_Z_plus.
    change (inject_Z 1) with 1. lra.
Qed.

(** X15. Without rounding, and whenever VaR returns, CVaR returns a
    number (its tail is never empty, so it is never NaN) and that number
    is at most the VaR. *)
Theorem CVaR_le_VaR data quant v :
  VaR data quant (Passed None) = Some v ->
  exists m, CVaR data quant (Passed None) = Some (Some m) /\ m <= v.
Proof.
  unfold VaR, CVaR. cbn [arg_or].
  destruct (np_quantile data _) as [u |] eqn:Hu; [| discriminate].
  intros [= <-]. cbn [round_opt].
  destruct (np_quantile_between _ _ _ Hu) as (lo & hi & Hlohi & Hhi & Hx & _).
  destruct (mean_list_le (List.filter (fun x => Qle_bool x u) data) u)
    as (m & Hm & Hle).
  - intros Hnil.
    assert (nth lo (np_sort data) 0 ∈ List.filter (fun x => Qle_bool x u) data)
      as Hin.
    { apply list_elem_of_In, filter_In. split.
      - apply list_elem_of_In, nth_np_sort_elem. lia.
      - by apply Qle_bool_iff. }
    rewrite Hnil in Hin. by apply elem_of_nil in Hin.
  - apply Forall_forall. intros x Hx'.
    apply list_elem_of_In, filter_In in Hx' as [_ Hx'].
    by apply Qle_bool_iff.
  - exists m. by rewrite Hm.
Qed.

Lemma CVaR_le_VaR_witness :
  exists m, CVaR [3; 1; 2; 5] (Passed (1 # 2)) (Passed None) = Some (Some m) /\
            m <= 5 # 2.
Proof.
  apply (CVaR_le_VaR [3; 1; 2; 5] (Passed (1 # 2)) (5 # 2)). reflexivity.
Defined.

(** * Further properties of energy_score *)

Local Open Scope nat_scope.

(** X16. The loop of energy_score closes a block at the rows step,
    2 * step, ... that lie strictly before the last row index
    len(target): it scores (len(target) - 1) / step blocks (integer
    division). *)
Theorem energy_score_blocks target step :
  0 < step ->
  length (block_ends target step) = (nrows target - 1) / step /\
  forall i, i ∈ block_ends target step ->
    exists k, i = (k + 1) * step /\ i < nrows target.
Proof.
  intros Hstep. split; [by apply block_ends_count |].
  intros i Hi. pose proof (block_ends_count target step Hstep) as Hcount.
  unfold block_ends in *. rewrite length_py_range in Hcount.
  unfold py_range in Hi. apply list_elem_of_fmap in Hi as (k & -> & Hk).
  apply elem_of_seq in Hk. rewrite Hcount in Hk.
  exists k. split; [lia |].
  assert (step * ((nrows target - 1) / step) <= nrows target - 1)
    by (apply Nat.Div0.mul_div_le).
  assert (0 < (nrows target - 1) / step) by lia.
  assert (0 < nrows target - 1).
  { destruct (nrows target - 1) eqn:E; [| lia].
    rewrite Nat.Div0.div_0_l in *. lia. }
  nia.
Qed.

Lemma energy_score_blocks_witness :
  let target := mkArr 7 1 [[1]; [2]; [3]; [4]; [5]; [6]; [7]]%Q in
  length (block_ends target 3) = (nrows target - 1) / 3 /\
  forall i, i ∈ block_ends target 3 ->
    exists k, i = (k + 1) * 3 /\ i < nrows target.
Proof.
  intros target. apply (energy_score_blocks target 3). lia.
Defined.

(** X17. When the target has at most step rows, no block is scored and
    energy_score returns NaN, the mean of an empty list. *)
Theorem energy_score_short_target (sqrt : Q -> Q) target pred_scenarios step :
  0 < step -> nrows target <= step ->
  energy_score sqrt target pred_scenarios step = Returned NaN.
Proof.
  intros Hstep Hshort. unfold energy_score.
  destruct (Nat.eqb_spec step 0); [lia |].
  assert (block_ends target step = []) as ->.
  { apply length_zero_iff_nil. rewrite block_ends_count by done.
    apply Nat.div_small. lia. }
  done.
Qed.

Lemma energy_score_short_target_witness :
  energy_score (fun x => x) (mkArr 2 1 [[1]; [2]]%Q) (mkArr 2 2 [[1; 1]; [2; 3]]%Q) 2
  = Returned NaN.
Proof.
  apply (energy_score_short_target (fun x => x) (mkArr 2 1 [[1]; [2]]%Q)
           (mkArr 2 2 [[1; 1]; [2; 3]]%Q) 2); simpl; lia.
Defined.

(** X18. With a scenario array that has no column and a target column
    long enough for one block, energy_score raises ZeroDivisionError: the
    dispersion sum 0 is divided by 2 * n_scen ** 2 = 0. *)
Theorem energy_score_no_scenario (sqrt : Q -> Q) target pred_scenarios step :
  0 < step -> step < nrows target ->
  ncols target = 1 ->
  nrows pred_scenarios = nrows target ->
  ncols pred_scenarios = 0 ->
  energy_score sqrt target pred_scenarios step = ZeroDivisionError.
Proof.
  intros Hstep Hrows Htc Hpr Hpc. unfold energy_score.
  destruct (Nat.eqb_spec step 0); [lia |].
  assert (exists rest, block_ends target step = step :: rest) as [rest ->].
  { unfold block_ends, py_range.
    destruct ((nrows target - step + step - 1) / step) as [| cnt] eqn:E.
    - apply Nat.div_small_iff in E; lia.
    - simpl. rewrite Nat.add_0_r. eauto. }
  cbn [block_scores]. unfold block_score. cbv zeta.
  destruct (broadcast2_returns Qminus
              (rows_slice (step - step) step pred_scenarios)
              (rows_slice (step - step) step target)) as [diff Hdiff].
  { unfold broadcastable, shape, rows_slice. cbn [nrows ncols tabulate fst snd].
    by rewrite Hpr, Htc, Hpc, broadcast_dim_refl. }
  rewrite Hdiff. cbn [bind]. rewrite Hpc. done.
Qed.

Lemma energy_score_no_scenario_witness :
  energy_score (fun x => x) (mkArr 3 1 [[1]; [2]; [3]]%Q) (mkArr 3 0 [[]; []; []]) 2
  = ZeroDivisionError.
Proof.
  apply (energy_score_no_scenario (fun x => x) (mkArr 3 1 [[1]; [2]; [3]]%Q)
           (mkArr 3 0 [[]; []; []]) 2); simpl; lia.
Defined.

(** * find_freq and the day-ahead starting point *)

(** X19. For every frequency string that find_freq recognises, 24 * freq
    is a whole number, so the starting point of lagged_predictors_pd in
    da_auction mode is exactly 24 * freq - 1 + operational_lag, without
    loss in int(): 23, 95 or 5 plus the operational lag. *)
Theorem find_freq_starting_point freq_str freq operational_lag :
  find_freq freq_str = Some freq ->
  (inject_Z (starting_point freq operational_lag true)
     == 24 * freq - 1 + inject_Z operational_lag)%Q /\
  (starting_point freq operational_lag true
     = claimed_starting_point freq operational_lag true)%Z.
Proof.
  unfold find_freq.
  destruct (_ || _); [| destruct (String.eqb _ _); [| destruct (String.eqb _ _)]];
    intros [= <-]; unfold starting_point, claimed_starting_point;
    (split; [| reflexivity]);
    vm_compute (py_int _); unfold Qeq; cbn; lia.
Qed.

Lemma find_freq_starting_point_witness :
  (inject_Z (starting_point 4 2 true) == 24 * 4 - 1 + inject_Z 2)%Q /\
  (starting_point 4 2 true = claimed_starting_point 4 2 true)%Z.
Proof.
  apply (find_freq_starting_point "15min" 4 2). reflexivity.
Defined.

(** * pinball *)

Local Open Scope Q_scope.

Lemma bidx_id m i : (i < m)%nat -> bidx m i = i.
Proof. unfold bidx. destruct (Nat.eqb_spec m 1); [lia | done]. Qed.

Lemma broadcast_dim_1_r n : broadcast_dim n 1 = Some n.
Proof.
  unfold broadcast_dim. destruct (Nat.eqb_spec n 1) as [-> | Hn]; [done |].
  destruct (Nat.eqb_spec n 1); [lia | done].
Qed.

(** What pinball returns for an n x 1 target column, an n x q prediction
    matrix and q levels. *)
Lemma pinball_run prediction target quantiles :
  nrows target = nrows prediction ->
  ncols target = 1%nat ->
  ncols prediction = length quantiles ->
  exists L, pinball prediction target quantiles = Returned L /\
    shape L = shape prediction /\
    forall i j, (i < nrows prediction)%nat -> (j < ncols prediction)%nat ->
      get L i j = pinball_cell (get prediction i j) (get target i 0)
                    (nth j quantiles 0).
Proof.
  intros Hr Htc Hpc. unfold pinball. cbv zeta.
  set (n := nrows prediction). set (k := length quantiles).
  unfold broadcast2 at 1. cbn [nrows ncols np_tile_cols tabulate].
  rewrite Hr, Htc, Nat.mul_1_l, Hpc. fold n k. rewrite !broadcast_dim_refl.
  cbn [bind]. unfold broadcast2 at 1. cbn [nrows ncols tabulate row_vector].
  fold k. rewrite broadcast_dim_1_r, broadcast_dim_refl. cbn [bind].
  unfold broadcast2 at 1. cbn [nrows ncols np_tile_cols tabulate].
  rewrite Hr, Htc, Nat.mul_1_l, Hpc. fold n k. rewrite !broadcast_dim_refl.
  cbn [bind]. unfold broadcast2 at 1. unfold arr_map.
  cbn [nrows ncols tabulate row_vector].
  fold k. rewrite broadcast_dim_1_r, broadcast_dim_refl. cbn [bind].
  unfold broadcast2. cbn [nrows ncols tabulate]. rewrite !broadcast_dim_refl.
  eexists. split; [reflexivity |]. split.
  { unfold shape. cbn [nrows ncols tabulate]. by rewrite Hpc. }
  intros i j Hi Hj. unfold pinball_cell.
  unfold np_tile_cols.
  repeat first
    [ rewrite (bidx_id n i Hi)
    | rewrite (bidx_id k j Hj)
    | progress change (bidx 1 i) with 0%nat
    | rewrite get_tabulate by (rewrite ?Hr, ?Htc; fold n; lia) ].
  rewrite Htc, Nat.mod_1_r. reflexivity.
Qed.

(** X20. For an n x 1 target column, an n x q prediction matrix and q
    levels, pinball returns an n x q array whose cell (i, j) is
    max((t_i - p_ij) * level_j, (p_ij - t_i) * (1 - level_j)). *)
Theorem pinball_cells prediction target quantiles :
  nrows target = nrows prediction ->
  ncols target = 1%nat ->
  ncols prediction = length quantiles ->
  exists L, pinball prediction target quantiles = Returned L /\
    shape L = shape prediction /\
    forall i j, (i < nrows prediction)%nat -> (j < ncols prediction)%nat ->
      get L i j = pinball_cell (get prediction i j) (get target i 0)
                    (nth j quantiles 0).
Proof. apply pinball_run. Qed.

Lemma pinball_cells_witness :
  let prediction := mkArr 2 2 [[1; 3]; [2; 2]] in
  let target := mkArr 2 1 [[2]; [5]] in
  let quantiles := [1 # 4; 3 # 4] in
  exists L, pinball prediction target quantiles = Returned L /\
    shape L = shape prediction /\
    forall i j, (i < nrows prediction)%nat -> (j < ncols prediction)%nat ->
      get L i j = pinball_cell (get prediction i j) (get target i 0)
                    (nth j quantiles 0).
Proof.
  intros prediction target quantiles.
  apply (pinball_cells prediction target quantiles); reflexivity.
Defined.

Lemma pinball_cell_nonneg p t level :
  0 <= level -> level <= 1 -> 0 <= pinball_cell p t level.
Proof.
  intros H0 H1. unfold pinball_cell.
  destruct (Qlt_le_dec p t) as [Hlt | Hge].
  - apply Qle_trans with ((t - p) * level); [| apply Q.le_max_l].
    apply Qmult_le_0_compat; lra.
  - apply Qle_trans with ((p - t) * (1 - level)); [| apply Q.le_max_r].
    apply Qmult_le_0_compat; lra.
Qed.

(** X21. With every level inside [0, 1], no cell of the pinball loss is
    negative. *)
Theorem pinball_nonneg prediction target quantiles :
  nrows target = nrows prediction ->
  ncols target = 1%nat ->
  ncols prediction = length quantiles ->
  Forall (fun level => 0 <= level /\ level <= 1) quantiles ->
  exists L, pinball prediction target quantiles = Returned L /\
    forall i j, (i < nrows prediction)%nat -> (j < ncols prediction)%nat ->
      0 <= get L i j.
Proof.
  intros Hr Htc Hpc Hlevels.
  destruct (pinball_run prediction target quantiles Hr Htc Hpc)
    as (L & HL & _ & Hcells).
  exists L. split; [done |]. intros i j Hi Hj. rewrite Hcells by done.
  rewrite Hpc in Hj. destruct (lookup_lt_is_Some_2 quantiles j Hj) as [y Hy].
  rewrite (nth_lookup_Some _ _ _ _ Hy).
  eapply Forall_lookup_1 in Hlevels; [| exact Hy].
  destruct Hlevels. by apply pinball_cell_nonneg.
Qed.

Lemma pinball_nonneg_witness :
  let prediction := mkArr 2 2 [[1; 3]; [2; 2]] in
  exists L, pinball prediction (mkArr 2 1 [[2]; [5]]) [0; 1] = Returned L /\
    forall i j, (i < nrows prediction)%nat -> (j < ncols prediction)%nat ->
      0 <= get L i j.
Proof.
  intros prediction.
  apply (pinball_nonneg prediction (mkArr 2 1 [[2]; [5]]) [0; 1]);
    try reflexivity.
  repeat constructor; unfold Qle; simpl; lia.
Defined.

(** X22. In a column whose level is 1/2 the pinball loss is half the
    absolute error. *)
Theorem pinball_median prediction target quantiles j :
  nrows target = nrows prediction ->
  ncols target = 1%nat ->
  ncols prediction = length quantiles ->
  (j < ncols prediction)%nat ->
  nth j quantiles 0 == 1 # 2 ->
  exists L, pinball prediction target quantiles = Returned L /\
    forall i, (i < nrows prediction)%nat ->
      get L i j == (1 # 2) * Qabs (get prediction i j - get target i 0).
Proof.
  intros Hr Htc Hpc Hj Hhalf.
  destruct (pinball_run prediction target quantiles Hr Htc Hpc)
    as (L & HL & _ & Hcells).
  exists L. split; [done |]. intros i Hi. rewrite Hcells by done.
  unfold pinball_cell. rewrite Hhalf.
  set (p := get prediction i j). set (t := get target i 0).
  destruct (Q.max_spec ((t - p) * (1 # 2)) ((p - t) * (1 - (1 # 2))))
    as [[Hlt ->] | [Hle ->]].
  - rewrite Qabs_pos by lra. ring.
  - rewrite Qabs_neg by lra. ring.
Qed.

Lemma pinball_median_witness :
  let prediction := mkArr 2 2 [[1; 3]; [2; 7]] in
  let target := mkArr 2 1 [[2]; [5]] in
  exists L, pinball prediction target [1 # 10; 2 # 4] = Returned L /\
    forall i, (i < nrows prediction)%nat ->
      get L i 1 == (1 # 2) * Qabs (get prediction i 1 - get target i 0).
Proof.
  intros prediction target.
  apply (pinball_median prediction target [1 # 10; 2 # 4] 1);
    try reflexivity.
  simpl. lia.
Defined.

(** * The mean absolute error *)

(** X23. The MAE returned by eval_point_pred is never negative,
    whatever the digits argument. *)
Theorem eval_point_pred_mae_nonneg (sqrt : Q -> Q) predictions actual digits
    mape rmse mae :
  eval_point_pred sqrt predictions actual digits
    = Returned (mape, rmse, Some mae) ->
  0 <= mae.
Proof.
  unfold eval_point_pred. destruct (negb _); [discriminate |].
  unfold broadcast2 at 1.
  destruct (broadcast_dim _ _) as [r |]; [| discriminate].
  destruct (broadcast_dim _ _) as [c |]; [| discriminate].
  cbn [bind]. destruct (broadcast2 Qdiv _ actual); try discriminate.
  cbn [bind]. intros [= _ _ Hmae].
  match type of Hmae with round_opt _ (mean_list ?L) = _ =>
    assert (Forall (fun x => 0 <= x) L) as Hall end.
  { unfold arr_map. cbn [nrows ncols tabulate].
    apply Forall_flatten_tabulate. intros i j _ _. apply Qabs_nonneg. }
  destruct (mean_list _) as [m |] eqn:Hm; [| by destruct digits].
  pose proof (mean_list_nonneg _ _ Hall Hm) as Hm0.
  destruct digits as [d |]; simpl in Hmae; injection Hmae as <-; [| done].
  by apply py_round_nonneg.
Qed.

Lemma eval_point_pred_mae_nonneg_witness : 0 <= 3 # 2.
Proof.
  apply (eval_point_pred_mae_nonneg (fun x => x)
           (mkArr 1 2 [[1; 5]]) (mkArr 1 2 [[2; 3]]) None
           (Some (7 # 12)) (Some (5 # 2)) (3 # 2)).
  reflexivity.
Defined.
